(** * Gradient-descent simulator: the numeric engine and the step controller

    A shallow embedding of [src/App.js]: the two calculations
    ([calculateMSE], [calculateGradientDetails]), the React state of the
    component, its event handlers ([performSingleStep], [resetSimulation],
    [handleDataChange], ...) and the animation effect; then what the page
    shows of the state: the data of the two charts ([scatterChartData],
    [mseCurveData]) and the breakdown panel's next slope.

    JavaScript numbers are IEEE-754 doubles.  The code is written once, over
    an interface of number operations, and is read at two number models:
    - [xnum]: exact rationals extended with [NaN] and the two infinities
      (doubles without rounding error);
    - [float]: Rocq's primitive binary64 floats (the engine and the MSE
      curve). *)

From Stdlib Require Import QArith Qcanon Qround Qabs Lqa.
From Stdlib Require Import Ascii Uint63 Floats.PrimFloat.
From Stdlib Require Import Floats.SpecFloat Floats.FloatOps.
From stdpp Require Import base list strings numbers.

(** ** Number interface *)

(** The arithmetic the engine uses: the literals [0] and [2], the conversion
    of [data.length], and the four operators. *)
Class Arith (num : Type) := {
  num_of_nat : nat → num;
  num_add : num → num → num;
  num_sub : num → num → num;
  num_mul : num → num → num;
  num_div : num → num → num;
}.

Declare Scope num_scope.
Delimit Scope num_scope with num.
Infix "+" := num_add : num_scope.
Infix "-" := num_sub : num_scope.
Infix "*" := num_mul : num_scope.
Infix "/" := num_div : num_scope.
Notation "0" := (num_of_nat 0) : num_scope.
Notation "2" := (num_of_nat 2) : num_scope.

(** What the controller needs besides: [parseFloat] on strings,
    [parseFloat(v.toFixed(4))] as one rounding operation, and the truth value
    of a number (for [parseFloat(value) || 0]). *)
Class JSNumber (num : Type) `{Arith num} := {
  parseFloat : string → num;
  toFixed4 : num → num;
  truthy : num → bool;
}.

(** ** Data model *)

Section Engine.
Context {num : Type} `{Arith num}.
Local Open Scope num_scope.

(** [{ x, y }] *)
Record DataPoint := mkPoint { px : num; py : num }.

(** [{ id, x, y, prediction, errorTerm, contribution }] *)
Record PointGradient := mkPointGradient {
  pg_id : nat;
  pg_x : num;
  pg_y : num;
  prediction : num;
  errorTerm : num;
  contribution : num;
}.

(** [{ finalGradient, pointGradients }] *)
Record GradientDetails := mkGradientDetails {
  finalGradient : num;
  pointGradients : list PointGradient;
}.

(** ** Metric engine (App.js, [calculateMSE])

    [data] is always the array held in the [dataPoints] state, so the
    [!data] disjunct of the guard is the empty-array test. *)
Definition calculateMSE (a : num) (data : list DataPoint) : num :=
  if (length data =? 0)%nat then 0
  else
    let sumSquaredError :=
      foldl (λ acc point,
               let prediction := a * px point in
               let error := prediction - py point in
               acc + error * error) 0 data in
    sumSquaredError / num_of_nat (length data).

(** ** Gradient engine (App.js, [calculateGradientDetails])

    [data.map] visits the points in order; its callback adds to
    [totalGradientSum] as it goes.  [gradientLoop] is that traversal, with
    the running [index] and the running total passed along. *)
Fixpoint gradientLoop (a : num) (index : nat) (totalGradientSum : num)
    (data : list DataPoint) : num * list PointGradient :=
  match data with
  | [] => (totalGradientSum, [])
  | p :: rest =>
      let prediction := a * px p in
      let errorTerm := prediction - py p in
      let contribution := 2 * errorTerm * px p in
      let '(total, out) :=
        gradientLoop a (S index) (totalGradientSum + contribution) rest in
      (total,
       {| pg_id := (index + 1)%nat; pg_x := px p; pg_y := py p;
          prediction := prediction; errorTerm := errorTerm;
          contribution := contribution |} :: out)
  end.

Definition calculateGradientDetails (a : num) (data : list DataPoint)
    : GradientDetails :=
  let n := length data in
  let '(totalGradientSum, pointGradients) := gradientLoop a 0 0 data in
  let finalGradient := totalGradientSum / num_of_nat n in
  {| finalGradient := finalGradient; pointGradients := pointGradients |}.

End Engine.

Global Arguments DataPoint : clear implicits.
Global Arguments PointGradient : clear implicits.
Global Arguments GradientDetails : clear implicits.

(** ** Component state (App.js, the [useState] and [useRef] hooks) *)

Section Controller.
Context {num : Type} `{JSNumber num}.
Local Open Scope num_scope.

(** [{ step, a, mse, gradient }] *)
Record HistoryEntry := mkHistoryEntry {
  h_step : nat;
  h_a : num;
  h_mse : num;
  h_gradient : num;
}.

(** [{ pointGradients, finalGradient, currentA }] *)
Record StepDetails := mkStepDetails {
  sd_pointGradients : list (PointGradient num);
  sd_finalGradient : num;
  sd_currentA : num;
}.

(** [initialA] and [learningRate] start as number literals and hold the
    text of their input ([e.target.value]) after an edit.  [parseFloat] of
    a number reads its decimal form back: the only numbers ever stored in
    these fields are the literals [0] and [0.01], read back unchanged. *)
Inductive FieldValue :=
| FNum (v : num)
| FText (s : string).

Definition parseFloatOf (v : FieldValue) : num :=
  match v with
  | FNum v => v
  | FText s => parseFloat s
  end.

Record State := mkState {
  dataPoints : list (DataPoint num);
  manualA : num;
  learningRate : FieldValue;
  initialA : FieldValue;
  gdHistory : list HistoryEntry;
  isAnimating : bool;
  currentStep : nat;
  stepDetails : option StepDetails;
  (** a timeout set through [animationRef] is waiting to fire *)
  timerPending : bool;
}.

Definition iterations : nat := 30.

Definition point (x y : nat) : DataPoint num :=
  {| px := num_of_nat x; py := num_of_nat y |}.

(** The first render. *)
Definition initialState : State :=
  {| dataPoints :=
       [ point 20 45; point 22 50; point 24 55; point 25 60; point 28 65;
         point 30 72; point 31 76; point 33 82; point 34 85; point 35 90 ];
     manualA := num_of_nat 3 / num_of_nat 2;
     learningRate := FNum (num_of_nat 1 / num_of_nat 100);
     initialA := FNum 0;
     gdHistory := [];
     isAnimating := false;
     currentStep := 0;
     stepDetails := None;
     timerPending := false |}.

(** ** Handlers

    A handler is a closure of one render: it reads that render's state [r]
    and queues updates, which React applies together afterwards.
    [Pending] is the state the next render will see, with a flag saying
    whether a setter was called at all. *)
Record Pending := mkPending { next : State; rerender : bool }.

Definition Handler := Pending → Pending.

Definition ret : Handler := λ p, p.
Definition andThen (h1 h2 : Handler) : Handler := λ p, h2 (h1 p).
Local Notation "h1 ;; h2" := (andThen h1 h2) (at level 100, right associativity).

Definition update (f : State → State) : Handler :=
  λ p, {| next := f (next p); rerender := true |}.

Definition setDataPoints (v : list (DataPoint num)) : Handler :=
  update (λ s, mkState v (manualA s) (learningRate s) (initialA s)
                 (gdHistory s) (isAnimating s) (currentStep s)
                 (stepDetails s) (timerPending s)).
Definition setManualA (v : num) : Handler :=
  update (λ s, mkState (dataPoints s) v (learningRate s) (initialA s)
                 (gdHistory s) (isAnimating s) (currentStep s)
                 (stepDetails s) (timerPending s)).
Definition setLearningRate (v : FieldValue) : Handler :=
  update (λ s, mkState (dataPoints s) (manualA s) v (initialA s)
                 (gdHistory s) (isAnimating s) (currentStep s)
                 (stepDetails s) (timerPending s)).
Definition setInitialA (v : FieldValue) : Handler :=
  update (λ s, mkState (dataPoints s) (manualA s) (learningRate s) v
                 (gdHistory s) (isAnimating s) (currentStep s)
                 (stepDetails s) (timerPending s)).
Definition setGdHistory (v : list HistoryEntry) : Handler :=
  update (λ s, mkState (dataPoints s) (manualA s) (learningRate s)
                 (initialA s) v (isAnimating s) (currentStep s)
                 (stepDetails s) (timerPending s)).
Definition setIsAnimating (v : bool) : Handler :=
  update (λ s, mkState (dataPoints s) (manualA s) (learningRate s)
                 (initialA s) (gdHistory s) v (currentStep s)
                 (stepDetails s) (timerPending s)).
Definition setCurrentStep (v : nat) : Handler :=
  update (λ s, mkState (dataPoints s) (manualA s) (learningRate s)
                 (initialA s) (gdHistory s) (isAnimating s) v
                 (stepDetails s) (timerPending s)).
Definition setStepDetails (v : option StepDetails) : Handler :=
  update (λ s, mkState (dataPoints s) (manualA s) (learningRate s)
                 (initialA s) (gdHistory s) (isAnimating s) (currentStep s)
                 v (timerPending s)).

Definition withTimer (v : bool) (s : State) : State :=
  mkState (dataPoints s) (manualA s) (learningRate s) (initialA s)
    (gdHistory s) (isAnimating s) (currentStep s) (stepDetails s) v.

(** [clearTimeout(animationRef.current)]: a ref, not state, so no render
    is asked for. *)
Definition clearTimeout : Handler :=
  λ p, {| next := withTimer false (next p); rerender := rerender p |}.

(** App.js, [performSingleStep] *)
Definition performSingleStep (r : State) : Handler :=
  let hasHistory := (0 <? length (gdHistory r))%nat in
  let startA := if hasHistory then manualA r else parseFloatOf (initialA r) in
  let nextStepIndex := (if hasHistory then currentStep r + 1 else 0)%nat in
  let currentHistory := if hasHistory then gdHistory r else [] in
  (if hasHistory then ret else setManualA startA) ;;
  if (iterations <? nextStepIndex)%nat then ret
  else
    let mse := calculateMSE startA (dataPoints r) in
    let details := calculateGradientDetails startA (dataPoints r) in
    let newHistoryEntry :=
      {| h_step := nextStepIndex;
         h_a := toFixed4 startA;
         h_mse := toFixed4 mse;
         h_gradient := toFixed4 (finalGradient details) |} in
    let newHistory := currentHistory ++ [newHistoryEntry] in
    setGdHistory newHistory ;;
    setStepDetails
      (Some {| sd_pointGradients := pointGradients details;
               sd_finalGradient := finalGradient details;
               sd_currentA := startA |}) ;;
    setCurrentStep nextStepIndex ;;
    let nextA :=
      startA - parseFloatOf (learningRate r) * finalGradient details in
    setManualA nextA.

(** App.js, [stopSimulation] *)
Definition stopSimulation : Handler :=
  setIsAnimating false ;; clearTimeout.

(** App.js, [startSimulation] *)
Definition startSimulation (r : State) : Handler :=
  if isAnimating r then stopSimulation
  else
    (if (length (gdHistory r) =? 0)%nat
     then setManualA (parseFloatOf (initialA r)) ;; setCurrentStep 0
     else ret) ;;
    setIsAnimating true.

(** App.js, [resetSimulation] *)
Definition resetSimulation (r : State) : Handler :=
  setGdHistory [] ;;
  setStepDetails None ;;
  stopSimulation ;;
  setCurrentStep 0 ;;
  setManualA (parseFloatOf (initialA r)).

Inductive Coord := CoordX | CoordY.

(** [{ ...p, [field]: v }] *)
Definition withCoord (field : Coord) (v : num) (p : DataPoint num)
    : DataPoint num :=
  match field with
  | CoordX => {| px := v; py := py p |}
  | CoordY => {| px := px p; py := v |}
  end.

(** [parseFloat(value) || 0] *)
Definition parseFloatOrZero (value : string) : num :=
  let v := parseFloat value in
  if truthy v then v else 0.

(** App.js, [handleDataChange].  The inputs that call it are rendered from
    [dataPoints.map], so [index] is always the index of a point. *)
Definition handleDataChange (r : State) (index : nat) (field : Coord)
    (value : string) : Handler :=
  let newData :=
    alter (withCoord field (parseFloatOrZero value)) index (dataPoints r) in
  setDataPoints newData ;;
  resetSimulation r.

(** App.js, [resetAll] *)
Definition resetAll (r : State) : Handler :=
  setDataPoints
    [ point 1 2; point 2 4; point 3 5; point 4 7; point 5 11;
      point 6 11; point 7 14; point 8 17; point 9 20; point 10 21 ] ;;
  setInitialA (FNum 0) ;;
  resetSimulation r.

(** The [onChange] of the initial-slope input. *)
Definition changeInitialA (r : State) (value : string) : Handler :=
  setInitialA (FText value) ;; resetSimulation r.

(** The [onChange] of the learning-rate input. *)
Definition changeLearningRate (r : State) (value : string) : Handler :=
  setLearningRate (FText value) ;; resetSimulation r.

(** The [onChange] of the slope slider. *)
Definition changeManualA (value : string) : Handler :=
  stopSimulation ;; setManualA (parseFloat value).

(** ** Rendering and the animation effect

    The effect depends on [isAnimating] and [performSingleStep]; every
    handler that calls a setter changes one of them or leaves the
    simulation stopped.  On a new render the cleanup clears the timeout
    and a new one is set exactly when [isAnimating] holds. *)
Definition animationEffect (s : State) : State :=
  withTimer (isAnimating s) s.

Definition render (r : State) (h : Handler) : State :=
  let p := h {| next := r; rerender := false |} in
  if rerender p then animationEffect (next p) else next p.

Inductive Event :=
| ClickStep
| TimerFires
| ClickStart
| ClickReset
| ClickResetAll
| EditData (index : nat) (field : Coord) (value : string)
| EditInitialA (value : string)
| EditLearningRate (value : string)
| SlideManualA (value : string).

(** What the page lets happen: the step button is disabled while the
    animation runs, a timeout fires only if one is waiting, and only the
    inputs of existing points can be edited. *)
Definition enabled (ev : Event) (r : State) : Prop :=
  match ev with
  | ClickStep => isAnimating r = false
  | TimerFires => timerPending r = true
  | EditData index _ _ => (index < length (dataPoints r))%nat
  | _ => True
  end.

Definition handle (ev : Event) (r : State) : State :=
  match ev with
  | ClickStep => render r (performSingleStep r)
  | TimerFires => render (withTimer false r) (performSingleStep r)
  | ClickStart => render r (startSimulation r)
  | ClickReset => render r (resetSimulation r)
  | ClickResetAll => render r (resetAll r)
  | EditData index field value =>
      render r (handleDataChange r index field value)
  | EditInitialA value => render r (changeInitialA r value)
  | EditLearningRate value => render r (changeLearningRate r value)
  | SlideManualA value => render r (changeManualA value)
  end.

Inductive reachable : State → Prop :=
| reachable_init : reachable initialState
| reachable_step ev s :
    reachable s → enabled ev s → reachable (handle ev s).

(** The state after a list of events, oldest first. *)
Definition run (evs : list Event) (s : State) : State :=
  foldl (λ s ev, handle ev s) s evs.

End Controller.

Global Arguments HistoryEntry : clear implicits.
Global Arguments StepDetails : clear implicits.
Global Arguments FieldValue : clear implicits.
Global Arguments State : clear implicits.
Global Arguments Pending : clear implicits.
Global Arguments Handler : clear implicits.
Global Arguments Event : clear implicits.

(** ** The exact number model

    A double is [NaN], an infinity or a finite value; [xnum] keeps the three
    cases and takes the finite values to be exact rationals, so the
    arithmetic is IEEE-754's without rounding, overflow or underflow.  The
    sign of zero is not kept (it would only show in [1 / -0], which the
    program never computes). *)
Inductive xnum :=
| NaN
| Inf (negative : bool)
| Fin (q : Qc).

Definition Qc_negative (q : Qc) : bool := bool_decide (q < 0)%Qc.

Definition xadd (u v : xnum) : xnum :=
  match u, v with
  | NaN, _ | _, NaN => NaN
  | Inf s, Inf t => if eqb s t then Inf s else NaN
  | Inf s, Fin _ | Fin _, Inf s => Inf s
  | Fin p, Fin q => Fin (p + q)
  end.

Definition xneg (u : xnum) : xnum :=
  match u with
  | NaN => NaN
  | Inf s => Inf (negb s)
  | Fin q => Fin (- q)
  end.

Definition xsub (u v : xnum) : xnum := xadd u (xneg v).

Definition xmul (u v : xnum) : xnum :=
  match u, v with
  | NaN, _ | _, NaN => NaN
  | Inf s, Inf t => Inf (xorb s t)
  | Inf s, Fin q | Fin q, Inf s =>
      if decide (q = 0%Qc) then NaN else Inf (xorb s (Qc_negative q))
  | Fin p, Fin q => Fin (p * q)
  end.

Definition xdiv (u v : xnum) : xnum :=
  match u, v with
  | NaN, _ | _, NaN => NaN
  | Inf _, Inf _ => NaN
  | Inf s, Fin q => Inf (xorb s (Qc_negative q))
  | Fin _, Inf _ => Fin 0
  | Fin p, Fin q =>
      if decide (q = 0%Qc)
      then if decide (p = 0%Qc) then NaN else Inf (Qc_negative p)
      else Fin (p / q)
  end.

Definition Qc_of_nat (n : nat) : Qc := Q2Qc (inject_Z (Z.of_nat n)).

Definition xnum_of_nat (n : nat) : xnum := Fin (Qc_of_nat n).

#[export] Instance xnum_Arith : Arith xnum :=
  {| num_of_nat := xnum_of_nat;
     num_add := xadd; num_sub := xsub; num_mul := xmul; num_div := xdiv |}.

(** *** [Number.prototype.toFixed(4)] read back by [parseFloat]

    [toFixed] prints the integer [n] for which [n / 10^4] is nearest to the
    magnitude (the larger one on a tie) with four fraction digits, and the
    general form of the number from [10^21] on; [parseFloat] reads either
    back. *)
Definition round4 (q : Qc) : Qc :=
  if Qle_bool (inject_Z (10 ^ 21)) (Qabs q) then q
  else
    let n := Qfloor (Qabs q * inject_Z 10000 + (1 # 2))%Q in
    let m := Q2Qc (n # 10000) in
    if Qc_negative q then (- m)%Qc else m.

Definition xtoFixed4 (u : xnum) : xnum :=
  match u with
  | Fin q => Fin (round4 q)
  | _ => u
  end.

(** *** [parseFloat] on a string

    Leading white space (here: the ASCII white space and line terminators)
    is skipped and the longest prefix that is a [StrDecimalLiteral] is
    read: a sign, then [Infinity] or digits with an optional fraction and an
    optional exponent.  No such prefix gives [NaN]. *)
Definition isWhiteSpace (c : Ascii.ascii) : bool :=
  let n := Ascii.nat_of_ascii c in
  ((9 <=? n) && (n <=? 13)) || (n =? 32).

Fixpoint trimStart (s : string) : string :=
  match s with
  | String c rest => if isWhiteSpace c then trimStart rest else s
  | EmptyString => s
  end.

Definition digitValue (c : Ascii.ascii) : option Z :=
  let n := Ascii.nat_of_ascii c in
  if (48 <=? n) && (n <=? 57) then Some (Z.of_nat (n - 48)) else None.

(** The digits at the head of [s]: their value after [acc], how many there
    are, and the rest of the string. *)
Fixpoint readDigits (s : string) (acc : Z) (count : nat) : Z * nat * string :=
  match s with
  | String c rest =>
      match digitValue c with
      | Some d => readDigits rest (10 * acc + d) (S count)
      | None => (acc, count, s)
      end
  | EmptyString => (acc, count, s)
  end.

(** [ExponentPart], when one is there in full; the exponent read is [0]
    otherwise. *)
Definition readExponent (s : string) : Z :=
  match s with
  | String c rest =>
      if bool_decide (c = "e"%char ∨ c = "E"%char) then
        let '(negative, digits) :=
          match rest with
          | String "-" r => (true, r)
          | String "+" r => (false, r)
          | _ => (false, rest)
          end in
        let '(e, count, _) := readDigits digits 0 0 in
        if (count =? 0)%nat then 0%Z else if negative then (- e)%Z else e
      else 0%Z
  | EmptyString => 0%Z
  end.

Definition pow10 (e : Z) : Q :=
  if (0 <=? e)%Z then inject_Z (10 ^ e) else / inject_Z (10 ^ (- e)).

Definition readUnsigned (s : string) : option (bool → xnum) :=
  if String.prefix "Infinity" s then Some Inf
  else
    let '(i, ni, rest) := readDigits s 0 0 in
    let '(m, nf, hasDot, rest) :=
      match rest with
      | String "." r =>
          let '(m, nf, r) := readDigits r i 0 in (m, nf, true, r)
      | _ => (i, 0%nat, false, rest)
      end in
    if (ni =? 0)%nat && ((nf =? 0)%nat || negb hasDot) then None
    else
      let e := readExponent rest in
      let v := Q2Qc (inject_Z m * pow10 (e - Z.of_nat nf)) in
      Some (λ negative : bool, Fin (if negative then - v else v)%Qc).

Definition xparseFloat (s : string) : xnum :=
  let '(negative, body) :=
    match trimStart s with
    | String "-" r => (true, r)
    | String "+" r => (false, r)
    | t => (false, t)
    end in
  match readUnsigned body with
  | Some v => v negative
  | None => NaN
  end.

(** [NaN] and zero are the falsy numbers. *)
Definition xtruthy (u : xnum) : bool :=
  match u with
  | NaN => false
  | Inf _ => true
  | Fin q => negb (bool_decide (q = 0%Qc))
  end.

#[export] Instance xnum_JSNumber : JSNumber xnum :=
  {| parseFloat := xparseFloat; toFixed4 := xtoFixed4; truthy := xtruthy |}.

(** ** Binary64, for the engine *)
#[export] Instance float_Arith : Arith float :=
  {| num_of_nat := λ n, PrimFloat.of_uint63 (Uint63.of_Z (Z.of_nat n));
     num_add := PrimFloat.add; num_sub := PrimFloat.sub;
     num_mul := PrimFloat.mul; num_div := PrimFloat.div |}.


(** ** Vocabulary of the specification *)

Section SpecWords.
Context {num : Type} `{JSNumber num}.
Local Open Scope num_scope.

(** [l_1 + l_2 + ... + l_n], added up from the left as JavaScript does *)
Definition sum (l : list num) : num := foldl num_add 0 l.

(** "mean over the points" *)
Definition mean (l : list num) : num := sum l / num_of_nat (length l).

(** [(a*x_i - y_i)^2], point by point *)
Definition squaredErrors (a : num) (data : list (DataPoint num)) : list num :=
  map (λ p, (a * px p - py p) * (a * px p - py p)) data.

(** [(a*x_i - y_i)*x_i], point by point *)
Definition errorTimesX (a : num) (data : list (DataPoint num)) : list num :=
  map (λ p, (a * px p - py p) * px p) data.

(** The PointGradient the specification gives for the point at index [i]. *)
Definition pointGradientAt (a : num) (i : nat) (p : DataPoint num)
    : PointGradient num :=
  {| pg_id := i + 1; pg_x := px p; pg_y := py p;
     prediction := a * px p;
     errorTerm := a * px p - py p;
     contribution := 2 * (a * px p - py p) * px p |}.

(** [History[i].step == i] for all [i] *)
Definition historyIndexed (h : list (HistoryEntry num)) : Prop :=
  ∀ i r, h !! i = Some r → h_step r = i.

(** [startSlope] and [nextIndex] of step() *)
Definition startSlope (s : State num) : num :=
  match gdHistory s with
  | [] => parseFloatOf (initialA s)
  | _ => manualA s
  end.

Definition nextIndex (s : State num) : nat :=
  match gdHistory s with
  | [] => 0
  | _ => currentStep s + 1
  end.

(** The StepRecord step() is to append. *)
Definition stepRecord (s : State num) : HistoryEntry num :=
  {| h_step := nextIndex s;
     h_a := toFixed4 (startSlope s);
     h_mse := toFixed4 (calculateMSE (startSlope s) (dataPoints s));
     h_gradient :=
       toFixed4
         (finalGradient (calculateGradientDetails (startSlope s) (dataPoints s))) |}.

(** The invariant the controller keeps: the two History invariants, and
    [currentStep] being the index of the last record. *)
Definition stepInvariant (s : State num) : Prop :=
  historyIndexed (gdHistory s)
  ∧ (length (gdHistory s) ≤ iterations + 1)%nat
  ∧ (gdHistory s ≠ [] → (currentStep s + 1)%nat = length (gdHistory s)).

(** What the round-trip property recomputes from a record. *)
Definition recomputed (data : list (DataPoint num)) (r : HistoryEntry num)
    : num * num :=
  (toFixed4 (calculateMSE (h_a r) data),
   toFixed4 (finalGradient (calculateGradientDetails (h_a r) data))).

End SpecWords.

(** ** Order and distance on the exact numbers *)

#[export] Instance xnum_eq_dec : EqDecision xnum.
Proof. solve_decision. Defined.

(** [u < v]; nothing compares with [NaN]. *)
Definition xlt (u v : xnum) : Prop :=
  match u, v with
  | NaN, _ | _, NaN => False
  | Inf s, Inf t => s = true ∧ t = false
  | Inf s, Fin _ => s = true
  | Fin _, Inf t => t = false
  | Fin p, Fin q => (p < q)%Qc
  end.

Definition xle (u v : xnum) : Prop :=
  match u, v with
  | NaN, _ | _, NaN => False
  | _, _ => xlt u v ∨ u = v
  end.

#[export] Instance xlt_dec : RelDecision xlt.
Proof. intros [|s|p] [|t|q]; simpl; apply _. Defined.

#[export] Instance xle_dec : RelDecision xle.
Proof. intros [|s|p] [|t|q]; simpl; apply _. Defined.

(** A finite number written as a fraction. *)
Definition frac (n : Z) (d : positive) : xnum := Fin (Q2Qc (n # d)).

(** "Within the rounding precision of 4 decimal places": the two numbers
    differ by at most [10^-4]. *)
Definition within4 (u v : xnum) : Prop :=
  xle (xsub u v) (frac 1 10000) ∧ xle (xsub v u) (frac 1 10000).

(** The round-trip property, for one record: recomputing at the recorded
    [a] reproduces the recorded [mse] and [gradient]. *)
Definition reproduces (data : list (DataPoint xnum)) (r : HistoryEntry xnum)
    : Prop :=
  within4 (calculateMSE (h_a r) data) (h_mse r)
  ∧ within4 (finalGradient (calculateGradientDetails (h_a r) data))
      (h_gradient r).

#[export] Instance within4_dec (u v : xnum) : Decision (within4 u v).
Proof. unfold within4. apply _. Defined.

#[export] Instance reproduces_dec data r : Decision (reproduces data r).
Proof. unfold reproduces. apply _. Defined.

(** ** Datasets on the line [y = 2x] *)

Definition onLine (xs : list Qc) : list (DataPoint xnum) :=
  map (λ x, {| px := Fin x; py := Fin (2 * x) |}) xs.

Definition Qcsum (l : list Qc) : Qc := foldr Qcplus 0%Qc l.

(** The mean of [x^2] over the points. *)
Definition meanSquare (xs : list Qc) : Qc :=
  (Qcsum (map (λ x, x * x) xs) / Qc_of_nat (length xs))%Qc.

(** Gradient descent on such a dataset from slope 0, with [m] the mean of
    [x^2]: the slope step [k] starts from, and the MSE at it. *)
Fixpoint slopeAt (η m : Qc) (k : nat) : Qc :=
  match k with
  | O => 0
  | S k => slopeAt η m k - η * (2 * (slopeAt η m k - 2) * m)
  end%Qc.

Definition mseAt (η m : Qc) (k : nat) : Qc :=
  ((slopeAt η m k - 2) * (slopeAt η m k - 2) * m)%Qc.

(** The page brought to an all-zero dataset (every point edited to (0, 0)),
    learning rate 0.001 and initial slope 0. *)
Definition zeroDataEvents : list (Event) :=
  flat_map (λ i, [EditData i CoordX "0"; EditData i CoordY "0"]) (seq 0 10)
  ++ [EditLearningRate "0.001"; EditInitialA "0"].

Definition steps (k : nat) : list Event := replicate k ClickStep.

(** The first render, in the exact model. *)
Definition start : State xnum := initialState.

(** Small datasets in binary64. *)
Definition fpoint (x y : nat) : DataPoint float :=
  {| px := num_of_nat x; py := num_of_nat y |}.

(** The double nearest to [n / d], as a decimal literal is read. *)
Definition fratio (n d : Z) : float :=
  PrimFloat.div (PrimFloat.of_uint63 (Uint63.of_Z n))
    (PrimFloat.of_uint63 (Uint63.of_Z d)).

Definition tenth : float := fratio 1 10.

(** The slope in binary64 after [k] steps from the first render: the
    updates of [performSingleStep], which round nothing but the record. *)
Fixpoint floatSlope (k : nat) : float :=
  match k with
  | O => num_of_nat 0
  | S k =>
      let data := dataPoints (@initialState float _) in
      (floatSlope k
       - num_of_nat 1 / num_of_nat 100
         * finalGradient (calculateGradientDetails (floatSlope k) data))%num
  end.

(** A page showing the two points (1, 2) and (2, 4), with learning rate
    0.001 and initial slope 0 typed in, before any step. *)
Definition lineState : State xnum :=
  {| dataPoints := onLine [1; 2]%Qc;
     manualA := Fin 0;
     learningRate := FText "0.001";
     initialA := FText "0";
     gdHistory := [];
     isAnimating := false;
     currentStep := 0;
     stepDetails := None;
     timerPending := false |}.

(** ** What the page shows *)

Section Views.
Context {num : Type} `{JSNumber num}.

(** App.js, [currentMSE] and [currentGradient]: what the badge shows. *)
Definition currentMSE (s : State num) : num :=
  calculateMSE (manualA s) (dataPoints s).

Definition currentGradient (s : State num) : num :=
  finalGradient (calculateGradientDetails (manualA s) (dataPoints s)).

(** Every event of the list is enabled when its turn comes. *)
Fixpoint enabledRun (evs : list Event) (s : State num) : Prop :=
  match evs with
  | [] => True
  | ev :: evs => enabled ev s ∧ enabledRun evs (handle ev s)
  end.

(** The events whose handler calls [resetSimulation]. *)
Definition resets (ev : Event) : bool :=
  match ev with
  | ClickReset | ClickResetAll | EditData _ _ _
  | EditInitialA _ | EditLearningRate _ => true
  | _ => false
  end.

(** The step counter follows History: it is the [step] of the last
    record. *)
Definition counterMatches (s : State num) : Prop :=
  (currentStep s ≤ 30)%nat
  ∧ match list.last (gdHistory s) with
    | None => currentStep s = 0%nat
    | Some r => h_step r = currentStep s
    end.

(** The breakdown panel agrees with the last record and the dataset. *)
Definition detailsMatch (s : State num) : Prop :=
  match stepDetails s, list.last (gdHistory s) with
  | None, None => True
  | Some d, Some r =>
      h_a r = toFixed4 (sd_currentA d)
      ∧ h_mse r = toFixed4 (calculateMSE (sd_currentA d) (dataPoints s))
      ∧ h_gradient r = toFixed4 (sd_finalGradient d)
      ∧ sd_finalGradient d
        = finalGradient (calculateGradientDetails (sd_currentA d) (dataPoints s))
      ∧ sd_pointGradients d
        = pointGradients (calculateGradientDetails (sd_currentA d) (dataPoints s))
  | _, _ => False
  end.
End Views.


(** ** Finite datasets, in the exact model *)

(** The dataset with the finite coordinates [ds]. *)
Definition finitePoints (ds : list (Qc * Qc)) : list (DataPoint xnum) :=
  map (λ d, {| px := Fin d.1; py := Fin d.2 |}) ds.

(** The sums of [x_i^2], of [x_i * y_i] and of the squared errors at
    slope [a]. *)
Definition sumXX (ds : list (Qc * Qc)) : Qc :=
  Qcsum (map (λ d, d.1 * d.1)%Qc ds).

Definition sumXY (ds : list (Qc * Qc)) : Qc :=
  Qcsum (map (λ d, d.1 * d.2)%Qc ds).

Definition sumSquaredError (a : Qc) (ds : list (Qc * Qc)) : Qc :=
  Qcsum (map (λ d, (a * d.1 - d.2) * (a * d.1 - d.2))%Qc ds).

(** A number that is not negative: [NaN] apart, what a sum of squares is. *)
Definition notNegative (u : xnum) : Prop :=
  match u with
  | NaN => True
  | Inf negative => negative = false
  | Fin q => (0 ≤ q)%Qc
  end.

(** ** The charts *)

(** What the charts need of a number besides the arithmetic: [a <= b] for
    the loop test, and [parseFloat(v.toFixed(2))] as one rounding
    operation for the labels of the MSE curve. *)
Class JSChart (num : Type) := {
  num_leb : num → num → bool;
  toFixed2 : num → num;
}.

(** [Math.max] of two numbers, and [-Infinity], its value on no argument. *)
Class JSMath (num : Type) := {
  num_max : num → num → num;
  neg_infinity : num;
}.

Section Charts.
Context {num : Type} `{Arith num} `{JSChart num} `{JSMath num}.
Local Open Scope num_scope.

(** [Math.max(...values)] *)
Definition MathMax (values : list num) : num :=
  foldl num_max neg_infinity values.

(** App.js, [scatterChartData]: the fitted line is drawn from the origin
    to [x = maxX]. *)
Record ScatterChartData := mkScatterChartData {
  lineData : list (DataPoint num);
  maxX : num;
}.

Definition scatterChartData (s : State num) : ScatterChartData :=
  let maxX := MathMax (map px (dataPoints s)) + num_of_nat 1 in
  let lineData :=
    [ {| px := 0; py := 0 |};
      {| px := maxX; py := manualA s * maxX |} ] in
  {| lineData := lineData; maxX := maxX |}.

(** App.js, [mseCurveData]: one sample [{ a, mse }] of the curve. *)
Record CurveSample := mkCurveSample { cs_a : num; cs_mse : num }.

Definition curveSample (dataPoints : list (DataPoint num)) (a : num)
    : CurveSample :=
  {| cs_a := toFixed2 a; cs_mse := calculateMSE a dataPoints |}.

(** The literals of the loop: [4.5] is [9 / 2] and [0.1] is the number
    nearest to [1 / 10], which is what the division gives; [-1] is
    [0 - 1]. *)
Definition curveFirst : num := 0 - num_of_nat 1.
Definition curveLast : num := num_of_nat 9 / 2.
Definition curveStep : num := num_of_nat 1 / num_of_nat 10.

(** [for (let a = -1; a <= 4.5; a += 0.1) data.push(...)], from the test
    on: [fuel] bounds the number of tests, and [None] says that it did not
    suffice. *)
Fixpoint mseCurveLoop (fuel : nat) (dataPoints : list (DataPoint num))
    (a : num) (data : list CurveSample) : option (list CurveSample) :=
  match fuel with
  | O => None
  | S fuel =>
      if num_leb a curveLast
      then mseCurveLoop fuel dataPoints (a + curveStep)
             (data ++ [curveSample dataPoints a])
      else Some data
  end.

Definition mseCurveData (fuel : nat) (dataPoints : list (DataPoint num))
    : option (list CurveSample) :=
  mseCurveLoop fuel dataPoints curveFirst [].

(** The values of the loop variable at which the body runs. *)
Fixpoint curveSlopes (fuel : nat) (a : num) : option (list num) :=
  match fuel with
  | O => None
  | S fuel =>
      if num_leb a curveLast
      then cons a <$> curveSlopes fuel (a + curveStep)
      else Some []
  end.
End Charts.

Global Arguments ScatterChartData : clear implicits.
Global Arguments CurveSample : clear implicits.

(** *** The charts' operations in the exact model *)

(** [toFixed(2)] read back: as [round4], with two fraction digits. *)
Definition round2 (q : Qc) : Qc :=
  if Qle_bool (inject_Z (10 ^ 21)) (Qabs q) then q
  else
    let n := Qfloor (Qabs q * inject_Z 100 + (1 # 2))%Q in
    let m := Q2Qc (n # 100) in
    if Qc_negative q then (- m)%Qc else m.

Definition xtoFixed2 (u : xnum) : xnum :=
  match u with
  | Fin q => Fin (round2 q)
  | _ => u
  end.

#[export] Instance xnum_JSChart : JSChart xnum :=
  {| num_leb := λ u v, bool_decide (xle u v); toFixed2 := xtoFixed2 |}.

(** [Math.max] returns [NaN] as soon as an argument is [NaN]. *)
Definition xmax (u v : xnum) : xnum :=
  match u, v with
  | NaN, _ | _, NaN => NaN
  | _, _ => if bool_decide (xlt u v) then v else u
  end.

#[export] Instance xnum_JSMath : JSMath xnum :=
  {| num_max := xmax; neg_infinity := Inf true |}.

(** *** The charts' operations in binary64

    [x.toFixed(2)] prints, after the sign, the integer [n] for which
    [n / 100] is nearest to [|x|] (the larger one on a tie) with a point
    before its last two digits, and [parseFloat] reads that decimal back
    as the double nearest to it.  [|x| = m * 2^e] gives
    [n = floor ((200 * m * 2^e + 1) / 2)].  An integer [x] ([0 <= e])
    prints as itself and is read back as itself (also in the general form
    used from [10^21] on).  For [n < 2^53] the double [n] is exact and the
    division by 100 rounds [n / 100] to the nearest double, as reading
    the decimal does.  For [2^53 <= n] the doubles near [x] are at least
    [2^-6] apart, and [n / 100] is within [0.005] of [x], so it is read
    back as [x].  [NaN] and the infinities print as their names; zero of
    either sign prints as [0.00]. *)
Definition ftoFixed2 (x : float) : float :=
  match Prim2SF x with
  | S754_finite negative m e =>
      if (0 <=? e)%Z then x
      else
        let n := ((200 * Z.pos m + 2 ^ (- e)) / 2 ^ (1 - e))%Z in
        if (2 ^ 53 <=? n)%Z then x
        else
          let r := fratio n 100 in
          if negative then PrimFloat.opp r else r
  | S754_zero _ => PrimFloat.zero
  | _ => x
  end.

#[export] Instance float_JSChart : JSChart float :=
  {| num_leb := PrimFloat.leb; toFixed2 := ftoFixed2 |}.

(** The labels of the MSE curve in binary64: the doubles nearest to
    [-1.0], [-0.9], ..., [4.5], with [-0] for the eleventh. *)
Definition curveLabel (i : nat) : float :=
  if (i <=? 10)%nat then PrimFloat.opp (fratio (10 - Z.of_nat i) 10)
  else fratio (Z.of_nat i - 10) 10.

(** Two numbers that are the same, or finite and at most [d] apart. *)
Definition xclose (d : Qc) (u v : xnum) : Prop :=
  match u, v with
  | Fin p, Fin q => (- d ≤ p - q ∧ p - q ≤ d)%Qc
  | _, _ => u = v
  end.

(** A record whose three values have at most four decimals. *)
Definition rounded (r : HistoryEntry xnum) : Prop :=
  toFixed4 (h_a r) = h_a r
  ∧ toFixed4 (h_mse r) = h_mse r
  ∧ toFixed4 (h_gradient r) = h_gradient r.

(** ** Gradient descent on a finite dataset *)

(** The MSE and its derivative at slope [a], as the sums give them. *)
Definition mseOf (ds : list (Qc * Qc)) (a : Qc) : Qc :=
  (sumSquaredError a ds / Qc_of_nat (length ds))%Qc.

Definition gradientOf (ds : list (Qc * Qc)) (a : Qc) : Qc :=
  (2 * (a * sumXX ds - sumXY ds) / Qc_of_nat (length ds))%Qc.

(** The slope after [k] updates [a - η * gradient] from [a0]. *)
Fixpoint slopeAfter (η : Qc) (ds : list (Qc * Qc)) (a0 : Qc) (k : nat) : Qc :=
  match k with
  | O => a0
  | S k =>
      let a := slopeAfter η ds a0 k in
      (a - η * gradientOf ds a)%Qc
  end.

(** The record of step [k] on that trajectory. *)
Definition trajectoryRecord (η : Qc) (ds : list (Qc * Qc)) (a0 : Qc)
    (k : nat) : HistoryEntry xnum :=
  let a := slopeAfter η ds a0 k in
  {| h_step := k;
     h_a := Fin (round4 a);
     h_mse := Fin (round4 (mseOf ds a));
     h_gradient := Fin (round4 (gradientOf ds a)) |}.

(** The least-squares slope of the line through the origin. *)
Definition leastSquares (ds : list (Qc * Qc)) : Qc :=
  (sumXY ds / sumXX ds)%Qc.

(** ** The breakdown panel's next slope *)

(** [Number(text)], the coercion [*] applies to a string operand. *)
Class JSCoerce (num : Type) := {
  toNumber : string → num;
}.

Section Panel.
Context {num : Type} `{JSNumber num} `{JSCoerce num}.
Local Open Scope num_scope.

(** A number state used as an operand of [*]. *)
Definition toNumberOf (v : FieldValue num) : num :=
  match v with
  | FNum v => v
  | FText s => toNumber s
  end.

(** App.js, the card "next a" of the panel:
    [stepDetails.currentA - learningRate * stepDetails.finalGradient],
    the number that is then printed with [toFixed(4)]; the panel is
    rendered when [stepDetails] is not [null]. *)
Definition panelNextA (s : State num) : option num :=
  match stepDetails s with
  | Some d =>
      Some (sd_currentA d - toNumberOf (learningRate s) * sd_finalGradient d)
  | None => None
  end.
End Panel.

(** *** [Number(text)] in the exact model

    White space is trimmed at both ends and the empty string is 0.  What
    is left must be, in full, a [StrDecimalLiteral] (a sign, then
    [Infinity] or digits with an optional fraction and an optional
    exponent), whose value is the one [parseFloat] reads, or a binary,
    octal or hexadecimal integer literal; anything else is [NaN]. *)
Fixpoint trimEnd (s : string) : string :=
  match s with
  | EmptyString => EmptyString
  | String c rest =>
      match trimEnd rest with
      | EmptyString =>
          if isWhiteSpace c then EmptyString else String c EmptyString
      | t => String c t
      end
  end.

Definition isEmpty (s : string) : bool :=
  match s with
  | EmptyString => true
  | _ => false
  end.

(** An optional [ExponentPart], then the end of the string. *)
Definition exponentThenEnd (s : string) : bool :=
  match s with
  | EmptyString => true
  | String c rest =>
      if bool_decide (c = "e"%char ∨ c = "E"%char) then
        let digits :=
          match rest with
          | String "-" r | String "+" r => r
          | _ => rest
          end in
        let '(_, count, rest') := readDigits digits 0 0 in
        (0 <? count)%nat && isEmpty rest'
      else false
  end.

Definition isStrUnsignedDecimalLiteral (s : string) : bool :=
  if String.eqb s "Infinity" then true
  else
    let '(_, ni, rest) := readDigits s 0 0 in
    match rest with
    | String "." r =>
        let '(_, nf, r') := readDigits r 0 0 in
        ((0 <? ni)%nat || (0 <? nf)%nat) && exponentThenEnd r'
    | _ => (0 <? ni)%nat && exponentThenEnd rest
    end.

Definition isStrDecimalLiteral (s : string) : bool :=
  match s with
  | String "-" r | String "+" r => isStrUnsignedDecimalLiteral r
  | _ => isStrUnsignedDecimalLiteral s
  end.

(** The value of a digit in a base up to 16. *)
Definition digitInBase (base : Z) (c : Ascii.ascii) : option Z :=
  let n := Z.of_nat (Ascii.nat_of_ascii c) in
  let v :=
    if (48 <=? n)%Z && (n <=? 57)%Z then Some (n - 48)%Z
    else if (97 <=? n)%Z && (n <=? 102)%Z then Some (n - 87)%Z
    else if (65 <=? n)%Z && (n <=? 70)%Z then Some (n - 55)%Z
    else None in
  match v with
  | Some d => if (d <? base)%Z then Some d else None
  | None => None
  end.

(** The value of a string of digits in that base; [None] when a
    character is not such a digit. *)
Fixpoint readInBase (base : Z) (s : string) (acc : Z) : option Z :=
  match s with
  | EmptyString => Some acc
  | String c rest =>
      match digitInBase base c with
      | Some d => readInBase base rest (base * acc + d)
      | None => None
      end
  end.

(** [NonDecimalIntegerLiteral]: [0b], [0o] or [0x] and at least one digit. *)
Definition nonDecimalIntegerLiteral (s : string) : option Z :=
  match s with
  | String "0" (String c (String d rest)) =>
      let digits := String d rest in
      if bool_decide (c = "b"%char ∨ c = "B"%char) then readInBase 2 digits 0
      else if bool_decide (c = "o"%char ∨ c = "O"%char)
      then readInBase 8 digits 0
      else if bool_decide (c = "x"%char ∨ c = "X"%char)
      then readInBase 16 digits 0
      else None
  | _ => None
  end.

Definition xtoNumber (s : string) : xnum :=
  let t := trimEnd (trimStart s) in
  if isEmpty t then Fin 0
  else if isStrDecimalLiteral t then xparseFloat t
  else
    match nonDecimalIntegerLiteral t with
    | Some n => Fin (Q2Qc (inject_Z n))
    | None => NaN
    end.

#[export] Instance xnum_JSCoerce : JSCoerce xnum :=
  {| toNumber := xtoNumber |}.

(** * Properties of the controller, in every number model *)

Ltac unfold_handlers :=
  cbv [handle render performSingleStep startSimulation resetAll
       handleDataChange changeInitialA changeLearningRate changeManualA
       resetSimulation stopSimulation clearTimeout animationEffect
       setDataPoints setManualA setLearningRate setInitialA setGdHistory
       setIsAnimating setCurrentStep setStepDetails update andThen ret
       withTimer next rerender dataPoints manualA learningRate initialA
       gdHistory isAnimating currentStep stepDetails timerPending].

Section ControllerFacts.
Context {num : Type} `{JSNumber num}.
Local Open Scope num_scope.

Lemma startSlope_code (s : State num) :
  (if (0 <? length (gdHistory s))%nat then manualA s
   else parseFloatOf (initialA s)) = startSlope s.
Proof. unfold startSlope. by destruct (gdHistory s). Qed.

Lemma nextIndex_code (s : State num) :
  (if (0 <? length (gdHistory s))%nat then currentStep s + 1 else 0)%nat
  = nextIndex s.
Proof. unfold nextIndex. by destruct (gdHistory s). Qed.

Lemma currentHistory_code (s : State num) :
  (if (0 <? length (gdHistory s))%nat then gdHistory s else []) = gdHistory s.
Proof. by destruct (gdHistory s). Qed.

(** What [performSingleStep] queues, field by field, whatever the timer. *)
Lemma performSingleStep_fields (s : State num) (t : bool) :
  let s' := render (withTimer t s) (performSingleStep s) in
  dataPoints s' = dataPoints s
  ∧ learningRate s' = learningRate s
  ∧ initialA s' = initialA s
  ∧ isAnimating s' = isAnimating s
  ∧ if (iterations <? nextIndex s)%nat
    then gdHistory s' = gdHistory s ∧ currentStep s' = currentStep s
         ∧ manualA s' = manualA s ∧ stepDetails s' = stepDetails s
         ∧ timerPending s' = t
    else gdHistory s' = gdHistory s ++ [stepRecord s]
         ∧ currentStep s' = nextIndex s
         ∧ manualA s' =
             startSlope s
             - parseFloatOf (learningRate s)
               * finalGradient
                   (calculateGradientDetails (startSlope s) (dataPoints s))
         ∧ timerPending s' = isAnimating s.
Proof.
  unfold performSingleStep.
  rewrite startSlope_code, nextIndex_code, currentHistory_code.
  destruct s as [dp ma lr ia h an cs sd tp].
  set (st := mkState dp ma lr ia h an cs sd tp).
  assert (gdHistory st = h) as Hh by done.
  assert (nextIndex st = match h with [] => 0%nat | _ => (cs + 1)%nat end) as Hni by done.
  destruct (iterations <? nextIndex st)%nat eqn:Hn.
  - destruct h as [|r h]; [done|]. by unfold_handlers.
  - destruct h as [|r h]; by unfold_handlers.
Qed.

Lemma handle_ClickStep (s : State num) :
  handle ClickStep s = render (withTimer (timerPending s) s) (performSingleStep s).
Proof. by destruct s. Qed.

(** C1.  step() reads [startSlope] and [nextIndex] off the state (the
    initial slope and 0 when History is empty, the current slope and
    [currentStep + 1] otherwise); past [maxIterations = 30] it changes
    nothing; otherwise it appends exactly the record [{step: nextIndex,
    a: round(startSlope,4), mse: round(computeMSE(startSlope,data),4),
    gradient: round(finalGradient,4)}], sets [currentStep] to [nextIndex]
    and the current slope to [startSlope - learningRate * finalGradient]. *)
Theorem step_postcondition (s : State num) :
  let s' := handle ClickStep s in
  let g :=
    finalGradient (calculateGradientDetails (startSlope s) (dataPoints s)) in
  (gdHistory s = [] →
     startSlope s = parseFloatOf (initialA s) ∧ nextIndex s = 0%nat)
  ∧ (gdHistory s ≠ [] →
     startSlope s = manualA s ∧ nextIndex s = (currentStep s + 1)%nat)
  ∧ if (30 <? nextIndex s)%nat then s' = s
    else gdHistory s' =
           gdHistory s
           ++ [ {| h_step := nextIndex s;
                   h_a := toFixed4 (startSlope s);
                   h_mse :=
                     toFixed4 (calculateMSE (startSlope s) (dataPoints s));
                   h_gradient := toFixed4 g |} ]
         ∧ currentStep s' = nextIndex s
         ∧ manualA s' = startSlope s - parseFloatOf (learningRate s) * g.
Proof.
  intros s' g. split; [|split].
  - unfold startSlope, nextIndex. by intros ->.
  - unfold startSlope, nextIndex. by destruct (gdHistory s).
  - pose proof (performSingleStep_fields s (timerPending s)) as Hf.
    rewrite <- handle_ClickStep in Hf. cbv zeta in Hf. fold iterations.
    destruct (iterations <? nextIndex s)%nat.
    + subst s'. revert Hf. generalize (handle ClickStep s) as s'.
      intros s' (? & ? & ? & ? & ? & ? & ? & ? & ?).
      destruct s, s'; simpl in *. congruence.
    + by destruct Hf as (_ & _ & _ & _ & ? & ? & ? & _).
Qed.

(** ** The History invariants *)

Lemma stepInvariant_init : stepInvariant (@initialState num _).
Proof.
  repeat split; simpl; [|lia|done].
  intros i r Hi. by rewrite lookup_nil in Hi.
Qed.

Lemma stepInvariant_reset (s' : State num) :
  gdHistory s' = [] → stepInvariant s'.
Proof.
  intros Hh. unfold stepInvariant. rewrite Hh. repeat split; simpl; [|lia|done].
  intros i r Hi. by rewrite lookup_nil in Hi.
Qed.

Lemma nextIndex_length (s : State num) :
  stepInvariant s → nextIndex s = length (gdHistory s).
Proof.
  intros (_ & _ & Hc). unfold nextIndex.
  destruct (gdHistory s) eqn:Hh; [done|]. by apply Hc.
Qed.

Lemma stepInvariant_performSingleStep (s : State num) (t : bool) :
  stepInvariant s → stepInvariant (render (withTimer t s) (performSingleStep s)).
Proof.
  intros Hinv. pose proof (nextIndex_length s Hinv) as Hn.
  destruct (performSingleStep_fields s t) as (_ & _ & _ & _ & Hf).
  destruct Hinv as (Hidx & Hlen & Hcur).
  destruct (iterations <? nextIndex s)%nat eqn:Hg.
  - destruct Hf as (Hh & Hc & _). unfold stepInvariant. by rewrite Hh, Hc.
  - destruct Hf as (Hh & Hc & _). apply Nat.ltb_ge in Hg.
    unfold stepInvariant. rewrite Hh, Hc, length_app. simpl.
    unfold iterations in *. repeat split; [|lia|lia].
    intros i r Hi. apply lookup_app_Some in Hi as [Hi|[Hge Hi]].
    + by apply Hidx.
    + apply list_lookup_singleton_Some in Hi as [Hi <-]. simpl. lia.
Qed.

Lemma stepInvariant_handle (ev : Event) (s : State num) :
  stepInvariant s → stepInvariant (handle ev s).
Proof.
  intros Hinv. destruct ev; [rewrite handle_ClickStep|unfold handle..].
  - by apply stepInvariant_performSingleStep.
  - by apply stepInvariant_performSingleStep.
  - destruct s as [dp ma lr ia h an cs sd tp].
    destruct an, h as [|r h]; try done.
    apply stepInvariant_reset. by unfold_handlers.
  - apply stepInvariant_reset. destruct s. by unfold_handlers.
  - apply stepInvariant_reset. destruct s. by unfold_handlers.
  - apply stepInvariant_reset. destruct s. by unfold_handlers.
  - apply stepInvariant_reset. destruct s. by unfold_handlers.
  - apply stepInvariant_reset. destruct s. by unfold_handlers.
  - by destruct s.
Qed.

(** C4.  In every state the page can reach (by steps, timer ticks, resets,
    slider moves, data edits and hyperparameter edits), [History[i].step = i]
    for every index [i], and History holds at most [maxIterations + 1 = 31]
    records. *)
Theorem history_invariants (s : State num) :
  reachable s →
  historyIndexed (gdHistory s) ∧ (length (gdHistory s) ≤ 31)%nat.
Proof.
  intros Hr.
  assert (stepInvariant s) as (? & ? & _); [|done].
  induction Hr as [|ev s _ IH _]; [apply stepInvariant_init|].
  by apply stepInvariant_handle.
Qed.

(** The same along any list of events, enabled or not. *)
Lemma history_invariants_run (evs : list (Event)) (s : State num) :
  stepInvariant s → stepInvariant (run evs s).
Proof.
  revert s. induction evs as [|ev evs IH]; intros s Hs; [done|].
  simpl. apply IH. by apply stepInvariant_handle.
Qed.

(** ** reset() *)

(** An explicit reset, a data edit and a learning-rate edit leave the state
    reset, the current slope being the initial slope. *)
Lemma reset_postcondition (ev : Event) (s : State num) :
  match ev with
  | ClickReset | EditData _ _ _ | EditLearningRate _ => True
  | _ => False
  end →
  let s' := handle ev s in
  gdHistory s' = [] ∧ currentStep s' = 0%nat
  ∧ manualA s' = parseFloatOf (initialA s') ∧ isAnimating s' = false.
Proof. destruct s, ev; try done; intros _; by unfold_handlers. Qed.

(** An edit of the initial slope resets with the initial slope of the
    render the handler was created in: the one before the edit. *)
Lemma reset_after_initialA_edit (value : string) (s : State num) :
  let s' := handle (EditInitialA value) s in
  gdHistory s' = [] ∧ currentStep s' = 0%nat ∧ isAnimating s' = false
  ∧ initialA s' = FText value
  ∧ manualA s' = parseFloatOf (initialA s).
Proof. destruct s. by unfold_handlers. Qed.

Lemma reset_after_resetAll (s : State num) :
  let s' := handle ClickResetAll s in
  gdHistory s' = [] ∧ currentStep s' = 0%nat ∧ isAnimating s' = false
  ∧ initialA s' = FNum 0
  ∧ manualA s' = parseFloatOf (initialA s).
Proof. destruct s. by unfold_handlers. Qed.

(** ** Manual override *)

(** C7.  Setting the current slope through the slider stops the animation
    and clears the waiting timeout, and leaves History (so its length) and
    [currentStep] as they were, in every state and for every value. *)
Theorem manual_override_frame (value : string) (s : State num) :
  let s' := handle (SlideManualA value) s in
  isAnimating s' = false ∧ timerPending s' = false
  ∧ gdHistory s' = gdHistory s
  ∧ length (gdHistory s') = length (gdHistory s)
  ∧ currentStep s' = currentStep s
  ∧ manualA s' = parseFloat value.
Proof. destruct s. by unfold_handlers. Qed.

(** X7.  No timeout waits while the animation is stopped: in every state
    the page can reach, a waiting timeout means that [isAnimating] holds.
    So after the override no timer event is enabled. *)
Lemma timer_needs_animation (s : State num) :
  reachable s → timerPending s = true → isAnimating s = true.
Proof.
  induction 1 as [|ev s Hr IH Hen]; [done|].
  destruct ev; [rewrite handle_ClickStep|unfold handle..].
  - simpl in Hen.
    destruct (performSingleStep_fields s (timerPending s))
      as (_ & _ & _ & Ha & Hf).
    cbv zeta in Ha, Hf. rewrite Ha.
    destruct (iterations <? nextIndex s)%nat.
    + destruct Hf as (_ & _ & _ & _ & ->). auto.
    + destruct Hf as (_ & _ & _ & ->). done.
  - destruct (performSingleStep_fields s false) as (_ & _ & _ & Ha & Hf).
    cbv zeta in Ha, Hf. rewrite Ha.
    destruct (iterations <? nextIndex s)%nat.
    + destruct Hf as (_ & _ & _ & _ & ->). done.
    + destruct Hf as (_ & _ & _ & ->). done.
  - destruct s as [dp ma lr ia h an cs sd tp]. by destruct an, h.
  - by destruct s.
  - by destruct s.
  - by destruct s.
  - by destruct s.
  - by destruct s.
  - by destruct s.
Qed.

(** ** Round trip *)


End ControllerFacts.

(** * Properties of the engine, in every number model *)

Section EngineFacts.
Context {num : Type} `{Arith num}.
Local Open Scope num_scope.

Lemma foldl_add_map {A} (f : A → num) (l : list A) (acc : num) :
  foldl (λ acc x, acc + f x) acc l = foldl num_add acc (map f l).
Proof. revert acc. induction l as [|x l IH]; intros acc; [done|]. apply IH. Qed.

Lemma calculateMSE_cons (a : num) (p : DataPoint num)
    (ps : list (DataPoint num)) :
  calculateMSE a (p :: ps) = mean (squaredErrors a (p :: ps)).
Proof.
  unfold calculateMSE, mean, squaredErrors, sum.
  cbn [length Nat.eqb]. by rewrite foldl_add_map, length_map.
Qed.

(** C3.  [computeMSE] returns 0 on the empty dataset and otherwise the mean
    over the points of [(a*x_i - y_i)^2]; it is a function of its two
    arguments alone. *)
Theorem calculateMSE_is_mean (a : num) :
  calculateMSE a [] = 0
  ∧ ∀ p ps, calculateMSE a (p :: ps) = mean (squaredErrors a (p :: ps)).
Proof. split; [done|]. apply calculateMSE_cons. Qed.

(** The traversal gives the points' gradients in order, and the left-to-right
    total of their contributions. *)
Lemma gradientLoop_spec (a : num) (data : list (DataPoint num)) (i : nat)
    (t : num) :
  gradientLoop a i t data =
  (foldl num_add t (map (λ p, 2 * (a * px p - py p) * px p) data),
   imap (λ j, pointGradientAt a (i + j)) data).
Proof.
  revert i t. induction data as [|p ps IH]; intros i t; [done|].
  cbn [gradientLoop foldl imap map]. rewrite IH. f_equal.
  unfold pointGradientAt at 2. rewrite Nat.add_0_r. f_equal.
  apply imap_ext. intros j q _. simpl. unfold pointGradientAt. f_equal; lia.
Qed.

Lemma contributions_imap (a : num) (data : list (DataPoint num)) (i : nat) :
  map contribution (imap (λ j, pointGradientAt a (i + j)) data)
  = map (λ p, 2 * (a * px p - py p) * px p) data.
Proof.
  revert i. induction data as [|p ps IH]; intros i; [done|].
  cbn [imap map]. f_equal. rewrite <- (IH (S i)). f_equal.
  apply imap_ext. intros j q _. simpl. by rewrite Nat.add_succ_r.
Qed.

Lemma calculateGradientDetails_eq (a : num) (data : list (DataPoint num)) :
  calculateGradientDetails a data =
  {| finalGradient :=
       sum (map (λ p, 2 * (a * px p - py p) * px p) data)
       / num_of_nat (length data);
     pointGradients := imap (pointGradientAt a) data |}.
Proof.
  unfold calculateGradientDetails. by rewrite gradientLoop_spec.
Qed.

Lemma calculateGradientDetails_points (a : num) (data : list (DataPoint num)) :
  let details := calculateGradientDetails a data in
  length (pointGradients details) = length data
  ∧ (∀ i p, data !! i = Some p →
       pointGradients details !! i = Some (pointGradientAt a i p))
  ∧ finalGradient details
    = sum (map contribution (pointGradients details))
      / num_of_nat (length data).
Proof.
  rewrite calculateGradientDetails_eq. cbn [finalGradient pointGradients].
  split; [by rewrite length_imap|]. split.
  - intros i q Hq. by rewrite list_lookup_imap, Hq.
  - by rewrite <- (contributions_imap a data 0).
Qed.

End EngineFacts.

(** * Arithmetic of the exact model *)

Lemma this_plus (x y : Qc) : (this (x + y) == this x + this y)%Q.
Proof. apply Qred_correct. Qed.

Lemma this_mult (x y : Qc) : (this (x * y) == this x * this y)%Q.
Proof. apply Qred_correct. Qed.

Lemma this_opp (x : Qc) : (this (- x) == - this x)%Q.
Proof. apply Qred_correct. Qed.

Lemma this_minus (x y : Qc) : (this (x - y) == this x - this y)%Q.
Proof. unfold Qcminus. rewrite this_plus, this_opp. reflexivity. Qed.

(** Order goals on [Qc] read in [Q], where [lra] and [nra] work. *)
Ltac to_Q :=
  unfold Qclt, Qcle in *;
  repeat (rewrite ?this_minus, ?this_plus, ?this_mult, ?this_opp in * );
  change (this 0) with 0%Q in *; change (this 1) with 1%Q in *.

(** A closed decidable statement, by evaluation. *)
Ltac by_compute :=
  lazymatch goal with |- ?P => apply (bool_decide_unpack P) end;
  vm_compute; exact I.

Section ExactArithmetic.
Local Open Scope Qc_scope.

Lemma Qc_of_nat_pos (n : nat) : (0 < n)%nat → 0 < Qc_of_nat n.
Proof.
  intros Hn. unfold Qclt, Qc_of_nat. cbn [this Q2Qc]. rewrite !Qred_correct.
  unfold Qlt. simpl. lia.
Qed.

Lemma Qc_of_nat_2 : Qc_of_nat 2 = 2.
Proof. by apply Qc_is_canon. Qed.

Lemma two_positive : 0 < Qc_of_nat 2.
Proof. apply Qc_of_nat_pos. lia. Qed.

Lemma Qcmult_pos_lt_0 (p q : Qc) : 0 < p → (p * q < 0 ↔ q < 0).
Proof.
  intros Hp. rewrite (Qcmult_lt_mono_pos_l q 0 p Hp). by rewrite Qcmult_0_r.
Qed.

Lemma Qc_negative_mult_pos (p q : Qc) :
  0 < p → Qc_negative (p * q) = Qc_negative q.
Proof. intros Hp. apply bool_decide_ext. by apply Qcmult_pos_lt_0. Qed.

Lemma Qcmult_pos_eq_0 (p q : Qc) : 0 < p → (p * q = 0 ↔ q = 0).
Proof.
  intros Hp. split; [|intros ->; ring].
  intros [->| ->]%Qcmult_integral; [|done]. by apply Qclt_not_eq in Hp.
Qed.

Lemma Qc_pos_not_negative (p : Qc) : 0 < p → Qc_negative p = false.
Proof.
  intros Hp. apply bool_decide_eq_false. intros Hn.
  by apply (Qclt_not_eq 0 0); [apply Qclt_trans with p|].
Qed.

Lemma Qc_pos_neq_0 (p : Qc) : 0 < p → p ≠ 0.
Proof. intros Hp ->. by apply Qclt_not_eq in Hp. Qed.

Lemma Qcsquare_nonneg (x : Qc) : 0 ≤ x * x.
Proof. to_Q. nra. Qed.

(** Addition is a commutative monoid, [NaN] and the infinities included. *)
Lemma xadd_comm (u v : xnum) : xadd u v = xadd v u.
Proof.
  destruct u as [|s|p], v as [|t|q]; simpl; try done.
  - by destruct s, t.
  - by rewrite Qcplus_comm.
Qed.

Lemma xadd_assoc (u v w : xnum) : xadd u (xadd v w) = xadd (xadd u v) w.
Proof.
  destruct u as [|s|p], v as [|t|q], w as [|r|o]; simpl; try done;
    try (by destruct s, t, r); try (by destruct s, t); try (by destruct t, r);
    try (by destruct s, r).
  by rewrite Qcplus_assoc.
Qed.

Lemma xadd_0_l (u : xnum) : xadd (xnum_of_nat 0) u = u.
Proof. destruct u; simpl; try done. f_equal. apply Qcplus_0_l. Qed.

Lemma foldl_xadd (l : list xnum) (acc : xnum) :
  foldl xadd acc l = xadd acc (foldr xadd (xnum_of_nat 0) l).
Proof.
  revert acc. induction l as [|u l IH]; intros acc; simpl.
  - by rewrite xadd_comm, xadd_0_l.
  - by rewrite IH, xadd_assoc.
Qed.

(** So the order of a sum does not matter. *)
Lemma sum_foldr (l : list xnum) : sum l = foldr xadd (xnum_of_nat 0) l.
Proof. unfold sum. simpl. by rewrite foldl_xadd, xadd_0_l. Qed.

Lemma sum_cons (u : xnum) (l : list xnum) : sum (u :: l) = xadd u (sum l).
Proof. by rewrite !sum_foldr. Qed.

(** Multiplying by a positive finite number. *)
Ltac positive_constant c Hc :=
  simpl;
  destruct (decide (c = 0%Qc)) as [->|_]; [by apply Qclt_not_eq in Hc|];
  rewrite ?(Qc_pos_not_negative c Hc), ?xorb_false_r.

Lemma xmul_pos_add (c : Qc) (u v : xnum) :
  0 < c → xmul (Fin c) (xadd u v) = xadd (xmul (Fin c) u) (xmul (Fin c) v).
Proof.
  intros Hc.
  destruct u as [|s|p], v as [|t|q]; positive_constant c Hc; try done.
  - by destruct s, t.
  - f_equal. ring.
Qed.

Lemma xmul_pos_assoc (c : Qc) (u v : xnum) :
  0 < c → xmul (xmul (Fin c) u) v = xmul (Fin c) (xmul u v).
Proof.
  intros Hc.
  destruct u as [|s|p], v as [|t|q]; positive_constant c Hc; try done.
  - simpl. destruct (decide (q = 0)); simpl; by rewrite ?xorb_false_r.
  - destruct (decide (p = 0)) as [->|Hp].
    + by rewrite Qcmult_0_r, decide_True.
    + rewrite decide_False by by rewrite Qcmult_pos_eq_0.
      rewrite Qc_negative_mult_pos by done. by rewrite xorb_false_r.
  - f_equal. ring.
Qed.

Lemma xdiv_pos_scale (c d : Qc) (u : xnum) :
  0 < c → 0 < d →
  xdiv (xmul (Fin c) u) (Fin d) = xmul (xdiv (Fin c) (Fin d)) u.
Proof.
  intros Hc Hd.
  assert (0 < c / d) as Hcd.
  { unfold Qcdiv. apply Qcmult_pos_pos; [done|]. by apply Qcinv_pos. }
  pose proof (Qc_pos_neq_0 d Hd) as Hnd.
  destruct u as [|s|p]; positive_constant d Hd; positive_constant c Hc;
    try done.
  - rewrite decide_False by by apply Qc_pos_neq_0.
    rewrite (Qc_pos_not_negative _ Hcd). simpl.
    by rewrite (Qc_pos_not_negative d Hd).
  - f_equal. by field.
Qed.

Lemma xdiv_Fin (p : Qc) (n : nat) :
  (0 < n)%nat → xdiv (Fin p) (xnum_of_nat n) = Fin (p / Qc_of_nat n).
Proof.
  intros Hn. simpl. rewrite decide_False; [done|].
  by apply Qc_pos_neq_0, Qc_of_nat_pos.
Qed.

Lemma sum_doubled {A} (f : A → xnum) (l : list A) :
  sum (map (λ x, xmul (xnum_of_nat 2) (f x)) l)
  = xmul (xnum_of_nat 2) (sum (map f l)).
Proof.
  induction l as [|x l IH]; cbn [map].
  - unfold sum. simpl; f_equal; by rewrite ?Qcmult_0_r.
  - rewrite !sum_cons, IH. symmetry. apply xmul_pos_add, two_positive.
Qed.

(** The mean of the contributions is [2/n] times the sum of
    [(a*x_i - y_i)*x_i]. *)
Lemma finalGradient_scaled (a : xnum) (p : DataPoint xnum)
    (ps : list (DataPoint xnum)) :
  let data := p :: ps in
  finalGradient (calculateGradientDetails a data)
  = (2 / num_of_nat (length data) * sum (errorTimesX a data))%num.
Proof.
  intros data. rewrite calculateGradientDetails_eq. cbn [finalGradient].
  unfold errorTimesX.
  rewrite (map_ext _ (λ p, xmul (xnum_of_nat 2)
                             ((a * px p - py p) * px p)%num))
    by (intros; apply xmul_pos_assoc, two_positive).
  rewrite (sum_doubled (λ p, (a * px p - py p) * px p)%num).
  apply xdiv_pos_scale; [apply two_positive|].
  apply Qc_of_nat_pos. simpl. lia.
Qed.

End ExactArithmetic.


(** C10.  [computeGradient] has no guard for the empty dataset: on [[]] it
    returns no PointGradient and divides [0] by [n = 0], which is [NaN], in
    exact arithmetic and in binary64 alike; nothing is raised.  [computeMSE]
    has the guard and returns [0]. *)
Theorem gradient_of_empty_dataset :
  (∀ (num : Type) (H : Arith num) (a : num),
     pointGradients (calculateGradientDetails a []) = []
     ∧ finalGradient (calculateGradientDetails a [])
       = (0 / num_of_nat 0)%num
     ∧ calculateMSE a [] = 0%num)
  ∧ (∀ a : xnum, finalGradient (calculateGradientDetails a []) = NaN)
  ∧ (∀ a : float,
       finalGradient (calculateGradientDetails a []) = PrimFloat.nan
       ∧ PrimFloat.is_nan (finalGradient (calculateGradientDetails a []))
         = true).
Proof. by repeat split. Qed.

(** * The page at work, in the exact model *)

Section Evaluation.
Local Open Scope num_scope.

(** The worked examples of the specification, in both number models: an
    exact fit has MSE 0 and gradient 0; the single point (1, 2) at slope 0
    has MSE 4 and gradient -4. *)
Example exact_fit :
  calculateMSE (num_of_nat 2) [point 1 2; point 2 4] = (0 : xnum)
  ∧ finalGradient
      (calculateGradientDetails (num_of_nat 2) [point 1 2; point 2 4])
    = (0 : xnum)
  ∧ calculateMSE (num_of_nat 2) [fpoint 1 2; fpoint 2 4] = 0%float
  ∧ finalGradient
      (calculateGradientDetails (num_of_nat 2) [fpoint 1 2; fpoint 2 4])
    = 0%float.
Proof. repeat split; try reflexivity; by_compute. Qed.

Example single_point :
  calculateMSE 0 [point 1 2] = frac 4 1
  ∧ finalGradient (calculateGradientDetails 0 [point 1 2]) = frac (-4) 1
  ∧ calculateMSE 0 [fpoint 1 2] = 4%float
  ∧ finalGradient (calculateGradientDetails 0 [fpoint 1 2]) = (-4)%float.
Proof. repeat split; try reflexivity; by_compute. Qed.

(** The rewriting of the gradient as [(2/n) * sum] is an identity of exact
    arithmetic.  The code computes [(sum of contributions) / n]; in
    binary64 the two forms can round apart in the last bits, as here at
    slope 0.1 on three points (1, 0). *)
Example binary64_rounds_the_two_forms_apart :
  let data := [fpoint 1 0; fpoint 1 0; fpoint 1 0] in
  finalGradient (calculateGradientDetails tenth data)
  = 0x1.999999999999bp-3%float
  ∧ 2 / num_of_nat 3 * sum (errorTimesX tenth data)
    = 0x1.999999999999ap-3%float.
Proof. by split. Qed.

(** One step from the first render: a reachable state, where the History
    invariants can be read off. *)
Lemma history_invariants_after_first_step :
  historyIndexed (gdHistory (handle ClickStep start))
  ∧ (length (gdHistory (handle ClickStep start)) ≤ 31)%nat.
Proof.
  apply (history_invariants (H0 := xnum_JSNumber)).
  apply reachable_step; [apply reachable_init|reflexivity].
Defined.

(** C5, at an edit of the initial slope.  Typing "2" into the initial-slope
    input of the first render empties History and resets [currentStep] and
    the animation, but the current slope becomes the initial slope of the
    render before the edit (0), not the one just typed (2). *)
Theorem initial_slope_edit_resets_to_previous_slope :
  let s' := handle (EditInitialA "2") start in
  gdHistory s' = [] ∧ currentStep s' = 0%nat ∧ isAnimating s' = false
  ∧ parseFloatOf (initialA s') = frac 2 1
  ∧ manualA s' = 0
  ∧ manualA s' ≠ parseFloatOf (initialA s').
Proof. cbv zeta. repeat split; try done; by_compute. Qed.

(** C6, at a hyperparameter.  A data coordinate that is not a number becomes
    0; an initial slope or a learning rate that is not a number (the empty
    text of a cleared input, or "abc") is kept as typed and read as [NaN] by
    every later step, which records [NaN] and leaves the current slope
    [NaN]. *)
Theorem non_numeric_hyperparameter_is_NaN :
  parseFloatOrZero "abc" = (0 : xnum)
  ∧ parseFloatOrZero EmptyString = (0 : xnum)
  ∧ (let s := run [EditInitialA EmptyString; ClickStep] start in
     parseFloatOf (initialA s) = NaN
     ∧ gdHistory s
       = [ {| h_step := 0; h_a := NaN; h_mse := NaN; h_gradient := NaN |} ]
     ∧ manualA s = NaN)
  ∧ (let s := run [EditLearningRate "abc"; ClickStep] start in
     parseFloatOf (learningRate s) = NaN ∧ manualA s = NaN).
Proof. cbv zeta. by repeat split. Qed.



(** The same in binary64: the fourth step starts from a slope strictly
    between 8866.73903 and 8866.73905, which [toFixed(4)] records as
    8866.739, and the MSE at the two slopes differs by more than 581. *)
Example roundtrip_gap_in_binary64 :
  let data := dataPoints (@initialState float _) in
  let recorded := fratio 8866739 1000 in
  let lower := fratio 886673903 100000 in
  let upper := fratio 886673905 100000 in
  PrimFloat.ltb lower (floatSlope 3) = true
  ∧ PrimFloat.ltb (floatSlope 3) upper = true
  ∧ PrimFloat.ltb (fratio 581 1)
      (calculateMSE (floatSlope 3) data - calculateMSE recorded data)%num
    = true.
Proof. cbv zeta. repeat split; vm_compute; reflexivity. Qed.


End Evaluation.

(** * Gradient descent on a dataset on the line [y = 2x] *)

Section Convergence.
Local Open Scope Qc_scope.

Lemma Qcsum_nonneg (l : list Qc) : (∀ q, q ∈ l → 0 ≤ q) → 0 ≤ Qcsum l.
Proof.
  unfold Qcsum. induction l as [|q l IH]; intros Hl; [done|].
  cbn [foldr]. apply Qcplus_nonneg_nonneg.
  - apply Hl. by left.
  - apply IH. intros r Hr. apply Hl. by right.
Qed.

Lemma meanSquare_nonneg (xs : list Qc) : 0 ≤ meanSquare xs.
Proof.
  unfold meanSquare. destruct xs as [|x xs]; [done|].
  unfold Qcdiv. apply Qcmult_nonneg_nonneg.
  - apply Qcsum_nonneg. intros q (y & -> & _)%list_elem_of_fmap.
    apply Qcsquare_nonneg.
  - apply Qclt_le_weak, Qcinv_pos, Qc_of_nat_pos. simpl. lia.
Qed.

Lemma meanSquare_nil : meanSquare [] = 0.
Proof. by apply Qc_is_canon. Qed.

Lemma squaredErrors_onLine (a : Qc) (xs : list Qc) :
  sum (squaredErrors (Fin a) (onLine xs))
  = Fin ((a - 2) * (a - 2) * Qcsum (map (λ x, x * x) xs)).
Proof.
  unfold squaredErrors, onLine, Qcsum.
  induction xs as [|x xs IH]; cbn [map foldr].
  - unfold sum. simpl. unfold xnum_of_nat. f_equal.
    change (Qc_of_nat 0) with 0%Qc. ring.
  - rewrite sum_cons, IH. simpl. f_equal. ring.
Qed.

Lemma errorTimesX_onLine (a : Qc) (xs : list Qc) :
  sum (errorTimesX (Fin a) (onLine xs))
  = Fin ((a - 2) * Qcsum (map (λ x, x * x) xs)).
Proof.
  unfold errorTimesX, onLine, Qcsum.
  induction xs as [|x xs IH]; cbn [map foldr].
  - unfold sum. simpl. unfold xnum_of_nat. f_equal.
    change (Qc_of_nat 0) with 0%Qc. ring.
  - rewrite sum_cons, IH. simpl. f_equal. ring.
Qed.

Lemma onLine_cons (xs : list Qc) : xs ≠ [] → ∃ p ps, onLine xs = p :: ps.
Proof. destruct xs; [done|]. intros _. by eexists _, _. Qed.

(** On such a dataset the MSE at slope [a] is [(a - 2)^2] times the mean of
    [x^2], and the gradient [2 (a - 2)] times it. *)
Lemma calculateMSE_onLine (a : Qc) (xs : list Qc) :
  xs ≠ [] →
  calculateMSE (Fin a) (onLine xs) = Fin ((a - 2) * (a - 2) * meanSquare xs).
Proof.
  intros Hne. destruct (onLine_cons xs Hne) as (p & ps & Hps).
  rewrite Hps, calculateMSE_cons, <- Hps. unfold mean.
  rewrite squaredErrors_onLine. unfold squaredErrors, onLine.
  rewrite !length_map. cbn [num_of_nat num_div xnum_Arith].
  rewrite xdiv_Fin by (destruct xs; [done|simpl; lia]).
  f_equal. unfold meanSquare, Qcdiv. ring.
Qed.

Lemma finalGradient_onLine (a : Qc) (xs : list Qc) :
  xs ≠ [] →
  finalGradient (calculateGradientDetails (Fin a) (onLine xs))
  = Fin (2 * (a - 2) * meanSquare xs).
Proof.
  intros Hne. destruct (onLine_cons xs Hne) as (p & ps & Hps).
  pose proof (finalGradient_scaled (Fin a) p ps) as Hg.
  cbv zeta in Hg. rewrite Hps, Hg, <- Hps.
  rewrite errorTimesX_onLine. unfold onLine. rewrite length_map.
  cbn [num_of_nat num_div num_mul xnum_Arith].
  change (xnum_of_nat 2) with (Fin (Qc_of_nat 2)).
  rewrite xdiv_Fin by (destruct xs; [done|simpl; lia]).
  simpl. f_equal. rewrite Qc_of_nat_2. unfold meanSquare, Qcdiv. ring.
Qed.

Lemma run_steps_S (k : nat) (s : State xnum) :
  run (steps (S k)) s = handle ClickStep (run (steps k) s).
Proof. unfold run, steps. by rewrite replicate_S_end, foldl_app. Qed.

(** The state after [k] steps from an empty History and initial slope 0. *)
Lemma descent_invariant (xs : list Qc) (η : Qc) (s : State xnum) (k : nat) :
  xs ≠ [] → dataPoints s = onLine xs → gdHistory s = [] →
  parseFloatOf (initialA s) = Fin 0 → parseFloatOf (learningRate s) = Fin η →
  (k ≤ 31)%nat →
  let sk := run (steps k) s in
  let m := meanSquare xs in
  dataPoints sk = onLine xs
  ∧ parseFloatOf (learningRate sk) = Fin η
  ∧ startSlope sk = Fin (slopeAt η m k)
  ∧ nextIndex sk = k
  ∧ length (gdHistory sk) = k
  ∧ ∀ i r, gdHistory sk !! i = Some r → h_mse r = Fin (round4 (mseAt η m i)).
Proof.
  intros Hxs Hdata Hh Hia Hlr. induction k as [|k IH]; intros Hk sk m.
  - subst sk. cbn [steps replicate run foldl].
    unfold startSlope, nextIndex. rewrite Hh. by repeat split.
  - destruct IH as (Hd & Hl & Hs & Hn & Hlen & Hrec); [lia|].
    subst sk. rewrite run_steps_S. set (sk := run (steps k) s) in *.
    rewrite handle_ClickStep.
    destruct (performSingleStep_fields sk (timerPending sk))
      as (Hd' & Hl' & _ & _ & Hf).
    cbv zeta in Hd', Hl', Hf.
    rewrite Hn in Hf. replace (iterations <? k)%nat with false in Hf
      by (symmetry; apply Nat.ltb_ge; unfold iterations; lia).
    destruct Hf as (Hh' & Hc' & Hm' & _).
    rewrite Hs, Hl, Hd, finalGradient_onLine in Hm' by done.
    assert (h_mse (stepRecord sk) = Fin (round4 (mseAt η m k))) as Hmse.
    { unfold stepRecord. cbn [h_mse]. rewrite Hs, Hd.
      by rewrite calculateMSE_onLine. }
    repeat split.
    + by rewrite Hd'.
    + by rewrite Hl'.
    + unfold startSlope. rewrite Hh'.
      destruct (gdHistory sk); simpl; by rewrite Hm'.
    + unfold nextIndex. rewrite Hh', Hc'.
      destruct (gdHistory sk); simpl; lia.
    + rewrite Hh', length_app, Hlen. simpl. lia.
    + intros i r. rewrite Hh'. intros [Hi|[Hge Hi]]%lookup_app_Some.
      * by apply Hrec.
      * apply list_lookup_singleton_Some in Hi as [Hi <-].
        rewrite Hlen in Hi, Hge. by replace i with k by lia.
Qed.

(** The gap to the slope 2 shrinks by the factor [1 - 2 η m] a step. *)
Lemma slopeAt_gap (η m : Qc) (k : nat) :
  slopeAt η m (S k) - 2 = (1 - 2 * η * m) * (slopeAt η m k - 2).
Proof. cbn [slopeAt]. ring. Qed.

Lemma mseAt_0 (η m : Qc) : mseAt η m 0 = 2 * 2 * m.
Proof. unfold mseAt. cbn [slopeAt]. ring. Qed.

Lemma mseAt_S (η m : Qc) (k : nat) :
  mseAt η m (S k) = (1 - 2 * η * m) * (1 - 2 * η * m) * mseAt η m k.
Proof. unfold mseAt. rewrite slopeAt_gap. ring. Qed.

Lemma mseAt_nonneg (η m : Qc) (k : nat) : 0 ≤ m → 0 ≤ mseAt η m k.
Proof.
  intros Hm. unfold mseAt. apply Qcmult_nonneg_nonneg; [|done].
  apply Qcsquare_nonneg.
Qed.

Lemma shrink_factor (t : Qc) :
  0 < t → t < 1 →
  0 ≤ (1 - 2 * t) * (1 - 2 * t) ∧ (1 - 2 * t) * (1 - 2 * t) < 1.
Proof. intros H0 H1. split; [apply Qcsquare_nonneg|to_Q; nra]. Qed.

Lemma Qcmult_pos_r (η m : Qc) : 0 ≤ m → 0 < η * m → 0 < m.
Proof.
  intros [Hm|<-]%Qcle_lt_or_eq Hpos; [done|].
  rewrite Qcmult_0_r in Hpos. by apply Qclt_not_eq in Hpos.
Qed.

Lemma mseAt_decreases (η m : Qc) (k : nat) :
  0 ≤ m → 0 < η * m → η * m < 1 → (1 ≤ k)%nat →
  mseAt η m k < mseAt η m 0.
Proof.
  intros Hm Hpos Hlt Hk. rewrite mseAt_0.
  pose proof (Qcmult_pos_r η m Hm Hpos) as Hm'.
  destruct (shrink_factor (η * m) Hpos Hlt) as [Hc0 Hc1].
  induction k as [|k IH]; [lia|]. rewrite mseAt_S.
  replace (1 - 2 * η * m) with (1 - 2 * (η * m)) by ring.
  revert Hc0 Hc1. generalize ((1 - 2 * (η * m)) * (1 - 2 * (η * m))) as c.
  intros c Hc0 Hc1. destruct k as [|k].
  - rewrite mseAt_0. clear IH. to_Q. nra.
  - pose proof (mseAt_nonneg η m (S k) Hm) as Hnn.
    assert (mseAt η m (S k) < 2 * 2 * m) as IH' by (apply IH; lia).
    revert Hnn IH'. generalize (mseAt η m (S k)) as e. intros e Hnn IH'.
    clear IH. to_Q. nra.
Qed.

(** Rounding to four decimals keeps the order of non-negative numbers. *)
Lemma round4_nonneg_small (p : Qc) :
  0 ≤ p → Qle_bool (inject_Z (10 ^ 21)) (Qabs p) = false →
  round4 p = Q2Qc (Qfloor (p * inject_Z 10000 + (1 # 2))%Q # 10000).
Proof.
  intros Hp Hs. unfold round4. rewrite Hs.
  assert (Qc_negative p = false) as ->.
  { apply bool_decide_eq_false. by apply Qcle_not_lt. }
  apply Q2Qc_eq_iff. rewrite Qabs_pos by done. reflexivity.
Qed.

Lemma round4_mono (p q : Qc) : 0 ≤ p → p ≤ q → round4 p ≤ round4 q.
Proof.
  intros Hp Hpq. assert (0 ≤ q) as Hq by by apply Qcle_trans with p.
  destruct (Qle_bool (inject_Z (10 ^ 21)) (Qabs p)) eqn:Ep;
    destruct (Qle_bool (inject_Z (10 ^ 21)) (Qabs q)) eqn:Eq.
  - unfold round4. by rewrite Ep, Eq.
  - apply Qle_bool_iff in Ep. apply not_true_iff_false in Eq.
    exfalso. apply Eq. apply Qle_bool_iff.
    rewrite Qabs_pos in * by done. unfold Qcle in Hpq. lra.
  - rewrite (round4_nonneg_small p Hp Ep). unfold round4 at 1. rewrite Eq.
    apply Qle_bool_iff in Eq. apply not_true_iff_false in Ep.
    rewrite Qle_bool_iff in Ep. rewrite Qabs_pos in * by done.
    unfold Qcle. cbn [this Q2Qc]. rewrite Qred_correct.
    set (x := (p * inject_Z 10000 + (1 # 2))%Q).
    assert (Qfloor x ≤ 10 ^ 25)%Z as Hfl.
    { apply Z.lt_succ_r. rewrite Zlt_Qlt.
      apply Qle_lt_trans with x; [apply Qfloor_le|].
      unfold x.
      change (inject_Z (Z.succ (10 ^ 25)))
        with (inject_Z (10 ^ 21) * inject_Z 10000 + 1)%Q.
      change (inject_Z 10000) with 10000%Q.
      revert Ep. generalize (inject_Z (10 ^ 21)). intros B Ep. lra. }
    apply Qle_trans with (inject_Z (10 ^ 21)); [|done].
    unfold Qle. cbn [Qnum Qden inject_Z]. lia.
  - rewrite (round4_nonneg_small p Hp Ep), (round4_nonneg_small q Hq Eq).
    unfold Qcle. cbn [this Q2Qc]. rewrite !Qred_correct.
    assert (Qfloor (p * inject_Z 10000 + (1 # 2))
            ≤ Qfloor (q * inject_Z 10000 + (1 # 2)))%Z as Hfl.
    { apply Qfloor_resp_le. unfold Qcle in Hpq.
      change (inject_Z 10000) with 10000%Q. lra. }
    unfold Qle. cbn [Qnum Qden]. lia.
Qed.



End Convergence.

Section PageFacts.
Context {num : Type} `{JSNumber num}.
Local Open Scope num_scope.

Lemma handle_TimerFires (s : State num) :
  handle TimerFires s = render (withTimer false s) (performSingleStep s).
Proof. done. Qed.

(** What a handler that resets leaves. *)
Lemma reset_fields (ev : Event) (s : State num) :
  resets ev = true →
  let s' := handle ev s in
  gdHistory s' = [] ∧ currentStep s' = 0%nat ∧ stepDetails s' = None
  ∧ isAnimating s' = false ∧ timerPending s' = false.
Proof. destruct s, ev; try done; intros _; by unfold_handlers. Qed.

Lemma startSimulation_fields (s : State num) :
  let s' := handle ClickStart s in
  dataPoints s' = dataPoints s ∧ learningRate s' = learningRate s
  ∧ initialA s' = initialA s ∧ gdHistory s' = gdHistory s
  ∧ stepDetails s' = stepDetails s
  ∧ isAnimating s' = negb (isAnimating s)
  ∧ timerPending s' = negb (isAnimating s)
  ∧ (isAnimating s = false → gdHistory s = [] →
       manualA s' = parseFloatOf (initialA s) ∧ currentStep s' = 0%nat)
  ∧ (isAnimating s = true ∨ gdHistory s ≠ [] →
       manualA s' = manualA s ∧ currentStep s' = currentStep s).
Proof.
  destruct s as [dp ma lr ia h an cs sd tp].
  destruct an, h as [|r h]; unfold_handlers; cbn [length Nat.eqb];
    repeat split; try done; intros; by intuition.
Qed.

(** History after an event: emptied, kept, or longer by the record of the
    step. *)
Lemma gdHistory_handle (ev : Event) (s : State num) :
  if resets ev then gdHistory (handle ev s) = []
  else gdHistory (handle ev s) = gdHistory s
       ∨ gdHistory (handle ev s) = gdHistory s ++ [stepRecord s].
Proof.
  destruct (resets ev) eqn:Hr.
  { by apply reset_fields. }
  destruct ev; try done.
  - rewrite handle_ClickStep.
    destruct (performSingleStep_fields s (timerPending s)) as (_ & _ & _ & _ & Hf).
    cbv zeta in Hf. destruct (iterations <? nextIndex s)%nat.
    + left. apply Hf.
    + right. apply Hf.
  - rewrite handle_TimerFires.
    destruct (performSingleStep_fields s false) as (_ & _ & _ & _ & Hf).
    cbv zeta in Hf. destruct (iterations <? nextIndex s)%nat.
    + left. apply Hf.
    + right. apply Hf.
  - left. apply startSimulation_fields.
  - left. by destruct s.
Qed.

Lemma run_snoc (evs : list Event) (ev : Event) (s : State num) :
  run (evs ++ [ev]) s = handle ev (run evs s).
Proof. unfold run. by rewrite foldl_app. Qed.

Lemma run_app (evs1 evs2 : list Event) (s : State num) :
  run (evs1 ++ evs2) s = run evs2 (run evs1 s).
Proof. unfold run. by rewrite foldl_app. Qed.

(** X1.  History is append-only between resets: along events that do not
    reset (steps, timer steps, start and stop, the slider), the History at
    the start stays a prefix of the History, record for record. *)
Theorem history_append_only (evs : list Event) (s : State num) :
  Forall (λ ev, resets ev = false) evs →
  gdHistory s `prefix_of` gdHistory (run evs s).
Proof.
  intros Hevs. revert s.
  induction Hevs as [|ev evs Hev _ IH]; intros s; [done|].
  cbn [run foldl]. fold (run evs (handle ev s)).
  transitivity (gdHistory (handle ev s)); [|apply IH].
  pose proof (gdHistory_handle ev s) as Hh. rewrite Hev in Hh.
  destruct Hh as [-> | ->]; [done|]. by apply prefix_app_r.
Qed.

Lemma steps_progress (s : State num) (k : nat) :
  gdHistory s = [] → (k ≤ 31)%nat →
  length (gdHistory (run (steps k) s)) = k ∧ nextIndex (run (steps k) s) = k.
Proof.
  intros Hh. induction k as [|k IH]; intros Hk.
  - unfold nextIndex. cbn [steps replicate run foldl]. by rewrite Hh.
  - destruct IH as [Hlen Hn]; [lia|].
    unfold steps. rewrite replicate_S_end, run_snoc. fold (steps k).
    set (sk := run (steps k) s) in *. rewrite handle_ClickStep.
    destruct (performSingleStep_fields sk (timerPending sk))
      as (_ & _ & _ & _ & Hf).
    cbv zeta in Hf. rewrite Hn in Hf.
    replace (iterations <? k)%nat with false in Hf
      by (symmetry; apply Nat.ltb_ge; unfold iterations; lia).
    destruct Hf as (Hh' & Hc' & _). unfold nextIndex.
    rewrite Hh', Hc', length_app, Hlen. split; [simpl; lia|].
    destruct (gdHistory sk); simpl; lia.
Qed.

Lemma step_at_the_end (s : State num) :
  (iterations < nextIndex s)%nat → handle ClickStep s = s.
Proof.
  intros Hn. apply Nat.ltb_lt in Hn.
  pose proof (performSingleStep_fields s (timerPending s)) as Hf.
  rewrite <- handle_ClickStep in Hf. cbv zeta in Hf. rewrite Hn in Hf.
  revert Hf. generalize (handle ClickStep s) as s'.
  intros s' (? & ? & ? & ? & ? & ? & ? & ? & ?).
  destruct s, s'; simpl in *. congruence.
Qed.

(** X2.  From an empty History, [maxIterations + 1 = 31] steps give exactly
    31 records, numbered 0 to 30, and leave [currentStep = 30]; any further
    step changes nothing. *)
Theorem full_run (s : State num) (j : nat) :
  gdHistory s = [] →
  let s31 := run (steps 31) s in
  length (gdHistory s31) = 31%nat
  ∧ historyIndexed (gdHistory s31)
  ∧ currentStep s31 = 30%nat
  ∧ run (steps (31 + j)) s = s31.
Proof.
  intros Hh s31. destruct (steps_progress s 31 Hh) as [Hlen Hn]; [lia|].
  fold s31 in Hlen, Hn.
  destruct (history_invariants_run (steps 31) s) as (Hidx & _ & Hcur).
  { by apply stepInvariant_reset. }
  fold s31 in Hidx, Hcur.
  assert (gdHistory s31 ≠ []) as Hne.
  { intros Hnil. by rewrite Hnil in Hlen. }
  repeat split; [done|done|specialize (Hcur Hne); lia|].
  induction j as [|j IH]; [by rewrite Nat.add_0_r|].
  rewrite Nat.add_succ_r. unfold steps. rewrite replicate_S_end, run_snoc.
  fold (steps (31 + j)). rewrite IH. apply step_at_the_end.
  rewrite Hn. unfold iterations. lia.
Qed.

(** What the page keeps, event by event. *)
Lemma counterMatches_handle (ev : Event) (s : State num) :
  stepInvariant s → counterMatches s → counterMatches (handle ev s).
Proof.
  intros Hinv (Hle & Hlast). pose proof (nextIndex_length s Hinv) as Hn.
  assert (∀ t, counterMatches (render (withTimer t s) (performSingleStep s)))
    as Hstep.
  { intros t.
    destruct (performSingleStep_fields s t) as (_ & _ & _ & _ & Hf).
    cbv zeta in Hf. unfold counterMatches.
    destruct (iterations <? nextIndex s)%nat eqn:Hg.
    - destruct Hf as (-> & -> & _). done.
    - destruct Hf as (-> & -> & _). apply Nat.ltb_ge in Hg.
      rewrite last_snoc. unfold iterations in Hg. split; [lia|done]. }
  destruct (resets ev) eqn:Hr.
  { destruct (reset_fields ev s Hr) as (Hh & Hc & _).
    unfold counterMatches. rewrite Hh, Hc. simpl. split; [lia|done]. }
  destruct ev; try done.
  - rewrite handle_ClickStep. apply Hstep.
  - rewrite handle_TimerFires. apply Hstep.
  - destruct (startSimulation_fields s) as (_ & _ & _ & Hh & _ & _ & _ & Ha & Hb).
    unfold counterMatches. rewrite Hh.
    destruct (isAnimating s) eqn:Han.
    + destruct Hb as [_ ->]; [by left|done].
    + destruct (gdHistory s) as [|r h] eqn:Hhs.
      * destruct Ha as [_ ->]; [done..|]. simpl. split; [lia|done].
      * destruct Hb as [_ ->]; [by right|done].
Qed.

(** The breakdown [performSingleStep] stores with a record. *)
Lemma performSingleStep_details (s : State num) (t : bool) :
  let s' := render (withTimer t s) (performSingleStep s) in
  if (iterations <? nextIndex s)%nat then stepDetails s' = stepDetails s
  else
    let details := calculateGradientDetails (startSlope s) (dataPoints s) in
    stepDetails s'
    = Some {| sd_pointGradients := pointGradients details;
              sd_finalGradient := finalGradient details;
              sd_currentA := startSlope s |}.
Proof.
  unfold performSingleStep.
  rewrite startSlope_code, nextIndex_code, currentHistory_code.
  destruct s as [dp ma lr ia h an cs sd tp].
  set (st := mkState dp ma lr ia h an cs sd tp).
  destruct (iterations <? nextIndex st)%nat eqn:Hn.
  - destruct h as [|r h]; [done|]. by unfold_handlers.
  - destruct h as [|r h]; by unfold_handlers.
Qed.

Lemma detailsMatch_handle (ev : Event) (s : State num) :
  detailsMatch s → detailsMatch (handle ev s).
Proof.
  intros Hm.
  assert (∀ t, detailsMatch (render (withTimer t s) (performSingleStep s)))
    as Hstep.
  { intros t.
    destruct (performSingleStep_fields s t) as (Hd & _ & _ & _ & Hf).
    pose proof (performSingleStep_details s t) as Hsd.
    cbv zeta in Hd, Hf, Hsd. unfold detailsMatch.
    destruct (iterations <? nextIndex s)%nat.
    - destruct Hf as (-> & _). by rewrite Hd, Hsd.
    - destruct Hf as (-> & _). by rewrite Hd, Hsd, last_snoc. }
  destruct (resets ev) eqn:Hr.
  { destruct (reset_fields ev s Hr) as (Hh & _ & Hd & _).
    unfold detailsMatch. by rewrite Hh, Hd. }
  destruct ev; try done.
  - rewrite handle_ClickStep. apply Hstep.
  - rewrite handle_TimerFires. apply Hstep.
  - destruct (startSimulation_fields s) as (Hd & _ & _ & Hh & Hsd & _).
    unfold detailsMatch. by rewrite Hd, Hh, Hsd.
Qed.

Lemma dataPoints_length_handle (ev : Event) (s : State num) :
  length (dataPoints s) = 10%nat → length (dataPoints (handle ev s)) = 10%nat.
Proof.
  intros Hlen. destruct ev.
  - rewrite handle_ClickStep.
    by destruct (performSingleStep_fields s (timerPending s)) as (-> & _).
  - rewrite handle_TimerFires.
    by destruct (performSingleStep_fields s false) as (-> & _).
  - by destruct (startSimulation_fields s) as (-> & _).
  - by destruct s.
  - by destruct s.
  - destruct s as [dp ma lr ia h an cs sd tp]. unfold_handlers.
    by rewrite length_alter.
  - by destruct s.
  - by destruct s.
  - by destruct s.
Qed.

Lemma reachable_stepInvariant (s : State num) : reachable s → stepInvariant s.
Proof.
  induction 1 as [|ev s _ IH _]; [apply stepInvariant_init|].
  by apply stepInvariant_handle.
Qed.

(** X3.  The dataset always has the ten points of the first render: no
    handler adds or removes a point, so it is never empty. *)
Theorem dataset_keeps_ten_points (s : State num) :
  reachable s → length (dataPoints s) = 10%nat.
Proof.
  induction 1 as [|ev s _ IH _]; [done|]. by apply dataPoints_length_handle.
Qed.

(** X4.  [currentStep] is the [step] of the last record, 0 while History is
    empty, and never more than 30. *)
Theorem counter_follows_history (s : State num) :
  reachable s →
  (currentStep s ≤ 30)%nat
  ∧ match list.last (gdHistory s) with
    | None => currentStep s = 0%nat
    | Some r => h_step r = currentStep s
    end.
Proof.
  intros Hr. change (counterMatches s).
  induction Hr as [|ev s Hr IH _]; [by split; [simpl; lia|]|].
  apply counterMatches_handle; [by apply reachable_stepInvariant|done].
Qed.

Lemma reachable_detailsMatch (s : State num) : reachable s → detailsMatch s.
Proof.
  induction 1 as [|ev s Hr IH _]; [done|]. by apply detailsMatch_handle.
Qed.

(** X5.  The breakdown panel is absent exactly while History is empty;
    otherwise it holds the slope the last record was computed at, and the
    record's [a], [mse] and [gradient] are the four-decimal roundings of
    that slope and of [calculateMSE] and [calculateGradientDetails] at it,
    on the dataset now shown. *)
Theorem panel_matches_last_record (s : State num) :
  reachable s →
  match stepDetails s, list.last (gdHistory s) with
  | None, None => True
  | Some d, Some r =>
      h_a r = toFixed4 (sd_currentA d)
      ∧ h_mse r = toFixed4 (calculateMSE (sd_currentA d) (dataPoints s))
      ∧ h_gradient r = toFixed4 (sd_finalGradient d)
      ∧ sd_finalGradient d
        = finalGradient (calculateGradientDetails (sd_currentA d) (dataPoints s))
      ∧ sd_pointGradients d
        = pointGradients (calculateGradientDetails (sd_currentA d) (dataPoints s))
  | _, _ => False
  end.
Proof.
  apply reachable_detailsMatch.
Qed.

Lemma enabledRun_snoc (evs : list Event) (ev : Event) (s : State num) :
  enabledRun (evs ++ [ev]) s ↔ enabledRun evs s ∧ enabled ev (run evs s).
Proof.
  revert s. induction evs as [|e evs IH]; intros s; simpl.
  - tauto.
  - rewrite IH. tauto.
Qed.

Lemma ticks_progress (s : State num) (k : nat) :
  gdHistory s = [] → isAnimating s = false → (k ≤ 31)%nat →
  let evs := ClickStart :: replicate k TimerFires in
  enabledRun evs s
  ∧ length (gdHistory (run evs s)) = k ∧ nextIndex (run evs s) = k
  ∧ isAnimating (run evs s) = true ∧ timerPending (run evs s) = true.
Proof.
  intros Hh Han. induction k as [|k IH]; intros Hk evs.
  - subst evs. cbn [replicate run foldl enabledRun enabled].
    destruct (startSimulation_fields s) as (_ & _ & _ & Hh' & _ & Ha & Ht & _).
    unfold nextIndex. rewrite Hh', Ha, Ht, Hh, Han. by repeat split.
  - destruct IH as (Hen & Hlen & Hn & Ha & Ht); [lia|].
    subst evs. rewrite replicate_S_end, app_comm_cons.
    rewrite enabledRun_snoc, run_snoc.
    set (sk := run (ClickStart :: replicate k TimerFires) s) in *.
    rewrite handle_TimerFires.
    destruct (performSingleStep_fields sk false) as (_ & _ & _ & Ha' & Hf).
    cbv zeta in Ha', Hf. rewrite Hn in Hf.
    replace (iterations <? k)%nat with false in Hf
      by (symmetry; apply Nat.ltb_ge; unfold iterations; lia).
    destruct Hf as (Hh' & Hc' & _ & Ht'). unfold nextIndex.
    rewrite Hh', Hc', Ha', Ht', length_app, Hlen, Ha.
    repeat split; try done; [apply Hen|simpl; lia|].
    destruct (gdHistory sk); simpl; lia.
Qed.

(** X6.  Started on an empty History, the animation takes 31 timer steps,
    each re-arming the timeout.  The 32nd timeout finds the iteration cap
    reached and queues nothing: History keeps its 31 records, no timeout
    is set again, and [isAnimating] stays [true]. *)
Theorem animation_runs_out (s : State num) :
  gdHistory s = [] → isAnimating s = false →
  let evs := ClickStart :: replicate 31 TimerFires in
  let s' := run evs s in
  let s'' := handle TimerFires s' in
  enabledRun evs s ∧ enabled TimerFires s'
  ∧ length (gdHistory s') = 31%nat
  ∧ gdHistory s'' = gdHistory s'
  ∧ isAnimating s'' = true
  ∧ timerPending s'' = false
  ∧ ¬ enabled TimerFires s''.
Proof.
  intros Hh Han evs s' s''.
  destruct (ticks_progress s 31 Hh Han) as (Hen & Hlen & Hn & Ha & Ht); [lia|].
  fold evs in Hen, Hlen, Hn, Ha, Ht. fold s' in Hlen, Hn, Ha, Ht.
  subst s''. rewrite handle_TimerFires.
  destruct (performSingleStep_fields s' false) as (_ & _ & _ & Ha' & Hf).
  cbv zeta in Ha', Hf. rewrite Hn in Hf.
  change (iterations <? 31)%nat with true in Hf.
  destruct Hf as (Hh' & _ & _ & _ & Ht').
  rewrite Hh', Ha', Ha. cbn [enabled]. rewrite Ht'. by split_and!.
Qed.

(** X8.  Editing a coordinate of the point at [index] replaces that
    coordinate by the number typed (0 when it is not a number or is 0),
    keeps the point's other coordinate, every other point and both
    hyperparameters, and empties History. *)
Theorem data_edit_changes_one_coordinate (s : State num) (index : nat)
    (field : Coord) (value : string) (p : DataPoint num) :
  dataPoints s !! index = Some p →
  let s' := handle (EditData index field value) s in
  (∃ p', dataPoints s' !! index = Some p'
         ∧ match field with
           | CoordX => px p' = parseFloatOrZero value ∧ py p' = py p
           | CoordY => py p' = parseFloatOrZero value ∧ px p' = px p
           end)
  ∧ (∀ j, j ≠ index → dataPoints s' !! j = dataPoints s !! j)
  ∧ length (dataPoints s') = length (dataPoints s)
  ∧ learningRate s' = learningRate s ∧ initialA s' = initialA s
  ∧ gdHistory s' = [].
Proof.
  intros Hp. destruct s as [dp ma lr ia h an cs sd tp].
  cbn [dataPoints] in Hp. unfold_handlers. repeat split.
  - exists (withCoord field (parseFloatOrZero value) p). split.
    + by rewrite list_lookup_alter_eq, Hp.
    + by destruct field.
  - intros j Hj. by rewrite list_lookup_alter_ne.
  - by rewrite length_alter.
Qed.

(** X9.  The step after a reset starts from the initial slope as the reset
    state holds it, whatever the slope on display: also after an edit of
    the initial slope, which leaves the previous value on display. *)
Theorem first_step_after_reset (ev : Event) (s : State num) :
  resets ev = true →
  let s1 := handle ev s in
  let s2 := handle ClickStep s1 in
  let a0 := parseFloatOf (initialA s1) in
  let g := finalGradient (calculateGradientDetails a0 (dataPoints s1)) in
  gdHistory s2
  = [ {| h_step := 0; h_a := toFixed4 a0;
         h_mse := toFixed4 (calculateMSE a0 (dataPoints s1));
         h_gradient := toFixed4 g |} ]
  ∧ currentStep s2 = 0%nat
  ∧ manualA s2 = a0 - parseFloatOf (learningRate s1) * g.
Proof.
  intros Hr s1 s2 a0 g.
  destruct (reset_fields ev s Hr) as (Hh & _). fold s1 in Hh.
  subst s2. rewrite handle_ClickStep.
  destruct (performSingleStep_fields s1 (timerPending s1))
    as (_ & _ & _ & _ & Hf).
  cbv zeta in Hf. unfold nextIndex, stepRecord, startSlope, nextIndex in Hf.
  rewrite Hh in Hf. change (iterations <? 0)%nat with false in Hf.
  by destruct Hf as (-> & -> & -> & _).
Qed.

(** X10.  The slider steers training only once History is not empty: then
    the next step starts from the slider's value; on an empty History the
    next step starts from the initial slope and the slider's value is
    dropped. *)
Theorem slider_then_step (value : string) (s : State num) :
  let s1 := handle (SlideManualA value) s in
  let s2 := handle ClickStep s1 in
  let a1 := match gdHistory s with
            | [] => parseFloatOf (initialA s)
            | _ => parseFloat value
            end in
  let g := finalGradient (calculateGradientDetails a1 (dataPoints s)) in
  if (30 <? nextIndex s)%nat then gdHistory s2 = gdHistory s
  else
    list.last (gdHistory s2)
    = Some {| h_step := nextIndex s; h_a := toFixed4 a1;
              h_mse := toFixed4 (calculateMSE a1 (dataPoints s));
              h_gradient := toFixed4 g |}
    ∧ manualA s2 = a1 - parseFloatOf (learningRate s) * g.
Proof.
  intros s1 s2 a1 g.
  assert (gdHistory s1 = gdHistory s ∧ currentStep s1 = currentStep s
          ∧ dataPoints s1 = dataPoints s ∧ learningRate s1 = learningRate s
          ∧ initialA s1 = initialA s ∧ manualA s1 = parseFloat value)
    as (Hh & Hc & Hd & Hl & Hi & Hm) by by destruct s.
  subst s2. rewrite handle_ClickStep.
  destruct (performSingleStep_fields s1 (timerPending s1))
    as (_ & _ & _ & _ & Hf).
  cbv zeta in Hf.
  assert (nextIndex s1 = nextIndex s) as Hn by (unfold nextIndex; by rewrite Hh, Hc).
  assert (startSlope s1 = a1) as Hs.
  { unfold startSlope, a1. rewrite Hh, Hi, Hm. by destruct (gdHistory s). }
  unfold stepRecord in Hf. rewrite Hn, Hs, Hd, Hl, Hh in Hf.
  fold iterations. destruct (iterations <? nextIndex s)%nat.
  - apply Hf.
  - destruct Hf as (-> & _ & -> & _). by rewrite last_snoc.
Qed.

(** X11.  Start and stop: starting sets [isAnimating] and a timeout and
    disables the step button; stopping clears both.  Neither touches
    History, the dataset or the hyperparameters, and a start on a non-empty
    History resumes from the slope and step it finds. *)
Theorem start_then_stop (s : State num) :
  isAnimating s = false →
  let s1 := handle ClickStart s in
  let s2 := handle ClickStart s1 in
  (isAnimating s1 = true ∧ timerPending s1 = true ∧ ¬ enabled ClickStep s1)
  ∧ (isAnimating s2 = false ∧ timerPending s2 = false)
  ∧ gdHistory s1 = gdHistory s ∧ gdHistory s2 = gdHistory s
  ∧ dataPoints s2 = dataPoints s ∧ learningRate s2 = learningRate s
  ∧ initialA s2 = initialA s
  ∧ (gdHistory s ≠ [] →
       manualA s2 = manualA s ∧ currentStep s2 = currentStep s)
  ∧ (gdHistory s = [] →
       manualA s2 = parseFloatOf (initialA s) ∧ currentStep s2 = 0%nat).
Proof.
  intros Han. destruct s as [dp ma lr ia h an cs sd tp].
  cbn [isAnimating] in Han. subst an.
  destruct h as [|r h]; unfold_handlers; cbn [length Nat.eqb enabled];
    unfold_handlers; repeat split; try done.
Qed.

End PageFacts.

(** * The engine on finite datasets, in the exact model *)

Section FiniteDatasets.
Local Open Scope Qc_scope.

Lemma notNegative_square (u : xnum) : notNegative (xmul u u).
Proof.
  destruct u as [|s|q]; simpl; [done|by destruct s|apply Qcsquare_nonneg].
Qed.

Lemma notNegative_add (u v : xnum) :
  notNegative u → notNegative v → notNegative (xadd u v).
Proof.
  destruct u as [|s|p], v as [|t|q]; simpl; try done.
  - intros -> ->. done.
  - apply Qcplus_nonneg_nonneg.
Qed.

Lemma notNegative_div (u : xnum) (n : nat) :
  (0 < n)%nat → notNegative u → notNegative (xdiv u (xnum_of_nat n)).
Proof.
  intros Hn. pose proof (Qc_of_nat_pos n Hn) as Hpos.
  destruct u as [|s|p]; simpl; [done|..].
  - intros ->. by rewrite (Qc_pos_not_negative _ Hpos).
  - intros Hp. rewrite decide_False by by apply Qc_pos_neq_0.
    simpl. unfold Qcdiv. apply Qcmult_nonneg_nonneg; [done|].
    by apply Qclt_le_weak, Qcinv_pos.
Qed.

Lemma notNegative_sum (l : list xnum) :
  Forall notNegative l → notNegative (sum l).
Proof.
  induction 1 as [|u l Hu _ IH]; [by apply Qcle_refl|].
  rewrite sum_cons. by apply notNegative_add.
Qed.

(** X12.  [calculateMSE] is never negative: for every slope and dataset,
    [NaN] and infinite coordinates included, it returns [NaN] or a number
    that is 0 or more. *)
Theorem calculateMSE_not_negative (a : xnum) (data : list (DataPoint xnum)) :
  calculateMSE a data = NaN ∨ xle (xnum_of_nat 0) (calculateMSE a data).
Proof.
  assert (notNegative (calculateMSE a data)) as Hnn.
  { destruct data as [|p ps]; [by apply Qcle_refl|].
    rewrite calculateMSE_cons. unfold mean.
    apply notNegative_div; [simpl; lia|].
    apply notNegative_sum. unfold squaredErrors.
    apply Forall_fmap, Forall_forall. intros q _. apply notNegative_square. }
  destruct (calculateMSE a data) as [|s|q]; simpl in *; [by left|..]; right.
  - subst s. by left.
  - apply Qcle_lt_or_eq in Hnn as [Hlt| <-]; [by left|by right].
Qed.

Lemma length_finitePoints (ds : list (Qc * Qc)) :
  length (finitePoints ds) = length ds.
Proof. unfold finitePoints. by rewrite length_map. Qed.

Lemma squaredErrors_finite (a : Qc) (ds : list (Qc * Qc)) :
  sum (squaredErrors (Fin a) (finitePoints ds)) = Fin (sumSquaredError a ds).
Proof.
  unfold squaredErrors, finitePoints, sumSquaredError, Qcsum.
  induction ds as [|d ds IH]; cbn [map foldr]; [done|].
  by rewrite sum_cons, IH.
Qed.

Lemma errorTimesX_finite (a : Qc) (ds : list (Qc * Qc)) :
  sum (errorTimesX (Fin a) (finitePoints ds))
  = Fin (a * sumXX ds - sumXY ds).
Proof.
  unfold errorTimesX, finitePoints, sumXX, sumXY, Qcsum.
  induction ds as [|d ds IH]; cbn [map foldr].
  - unfold sum. simpl. unfold xnum_of_nat. f_equal.
    change (Qc_of_nat 0) with 0%Qc. ring.
  - rewrite sum_cons, IH. simpl. f_equal. ring.
Qed.

(** The engine on a finite dataset, as rational functions of the slope. *)
Lemma calculateMSE_finite (a : Qc) (ds : list (Qc * Qc)) :
  calculateMSE (Fin a) (finitePoints ds)
  = Fin (sumSquaredError a ds / Qc_of_nat (length ds)).
Proof.
  destruct ds as [|d ds].
  - simpl. unfold xnum_of_nat.
    f_equal; unfold Qcdiv; change (Qc_of_nat 0) with 0%Qc;
      by rewrite Qcmult_0_l.
  - change (finitePoints (d :: ds))
      with ({| px := Fin d.1; py := Fin d.2 |} :: finitePoints ds).
    rewrite calculateMSE_cons. unfold mean.
    change ({| px := Fin d.1; py := Fin d.2 |} :: finitePoints ds)
      with (finitePoints (d :: ds)).
    rewrite squaredErrors_finite. unfold squaredErrors.
    rewrite length_map, length_finitePoints.
    cbn [num_of_nat num_div xnum_Arith]. rewrite xdiv_Fin by (simpl; lia).
    done.
Qed.

Lemma finalGradient_finite (a : Qc) (ds : list (Qc * Qc)) :
  ds ≠ [] →
  finalGradient (calculateGradientDetails (Fin a) (finitePoints ds))
  = Fin (2 * (a * sumXX ds - sumXY ds) / Qc_of_nat (length ds)).
Proof.
  intros Hne. destruct ds as [|d ds]; [done|].
  change (finitePoints (d :: ds))
    with ({| px := Fin d.1; py := Fin d.2 |} :: finitePoints ds).
  pose proof (finalGradient_scaled (Fin a) {| px := Fin d.1; py := Fin d.2 |}
                (finitePoints ds)) as Hg.
  cbv zeta in Hg. rewrite Hg.
  change ({| px := Fin d.1; py := Fin d.2 |} :: finitePoints ds)
    with (finitePoints (d :: ds)).
  rewrite errorTimesX_finite, length_finitePoints.
  cbn [num_of_nat num_div num_mul xnum_Arith].
  change (xnum_of_nat 2) with (Fin (Qc_of_nat 2)).
  rewrite xdiv_Fin by (simpl; lia).
  simpl. f_equal. rewrite Qc_of_nat_2. unfold Qcdiv. ring.
Qed.

Lemma sumSquaredError_expand (a b : Qc) (ds : list (Qc * Qc)) :
  sumSquaredError b ds
  = sumSquaredError a ds + (b - a) * (2 * (a * sumXX ds - sumXY ds))
    + (b - a) * (b - a) * sumXX ds.
Proof.
  unfold sumSquaredError, sumXX, sumXY, Qcsum.
  induction ds as [|d ds IH]; cbn [map foldr]; [ring|].
  rewrite IH. ring.
Qed.

Lemma sumSquaredError_nonneg (a : Qc) (ds : list (Qc * Qc)) :
  0 ≤ sumSquaredError a ds.
Proof.
  apply Qcsum_nonneg. intros q (d & -> & _)%list_elem_of_fmap.
  apply Qcsquare_nonneg.
Qed.

Lemma sumXX_nonneg (ds : list (Qc * Qc)) : 0 ≤ sumXX ds.
Proof.
  apply Qcsum_nonneg. intros q (d & -> & _)%list_elem_of_fmap.
  apply Qcsquare_nonneg.
Qed.

Lemma Qcsquare_eq_0 (x : Qc) : x * x = 0 → x = 0.
Proof. by intros [?|?]%Qcmult_integral. Qed.

Lemma Qcplus_nonneg_eq_0 (x y : Qc) : 0 ≤ x → 0 ≤ y → x + y = 0 → x = 0 ∧ y = 0.
Proof.
  intros Hx Hy Hxy.
  assert (this x + this y == 0)%Q as Hq
    by (rewrite <- this_plus, Hxy; reflexivity).
  assert (x ≤ 0 ∧ y ≤ 0) as [Hx' Hy'] by (to_Q; split; lra).
  split; by apply Qcle_antisym.
Qed.

Lemma Fin_inj (p q : Qc) : Fin p = Fin q → p = q.
Proof.
  intros Heq.
  exact (f_equal (λ u, match u with Fin r => r | _ => p end) Heq).
Qed.

Lemma Qcsum_eq_0 (l : list Qc) :
  Forall (λ q, 0 ≤ q) l → Qcsum l = 0 → Forall (λ q, q = 0) l.
Proof.
  unfold Qcsum. induction 1 as [|q l Hq Hl IH]; cbn [foldr]; [done|].
  intros Hs.
  assert (0 ≤ foldr Qcplus 0 l) as Hnn.
  { apply Qcsum_nonneg. intros r Hr%list_elem_of_In.
    rewrite Forall_forall in Hl. by apply Hl. }
  destruct (Qcplus_nonneg_eq_0 _ _ Hq Hnn Hs) as [-> Hs'].
  constructor; [done|by apply IH].
Qed.

Lemma Qcdiv_eq_0 (p : Qc) (n : nat) :
  (0 < n)%nat → p / Qc_of_nat n = 0 ↔ p = 0.
Proof.
  intros Hn. pose proof (Qc_pos_neq_0 _ (Qc_of_nat_pos n Hn)) as Hne.
  split; [|intros ->; unfold Qcdiv; apply Qcmult_0_l].
  intros Hp. rewrite <- (Qcmult_div_r p (Qc_of_nat n)) by done.
  rewrite Hp. apply Qcmult_0_r.
Qed.


Lemma sumXX_meanSquare (ds : list (Qc * Qc)) :
  meanSquare ds.*1 = sumXX ds / Qc_of_nat (length ds).
Proof.
  unfold meanSquare, sumXX. rewrite length_fmap. f_equal.
  unfold Qcsum. induction ds as [|d ds IH]; [done|].
  cbn [fmap list_fmap map foldr]. f_equal. apply IH.
Qed.


(** The change of the MSE over one update of the slope. *)
Lemma descent_gain (a η : Qc) (ds : list (Qc * Qc)) :
  let n := Qc_of_nat (length ds) in
  let g := 2 * (a * sumXX ds - sumXY ds) / n in
  sumSquaredError a ds / n - sumSquaredError (a - η * g) ds / n
  = η * (g * g) * (1 - η * (sumXX ds / n)).
Proof.
  intros n g. rewrite (sumSquaredError_expand a (a - η * g)).
  destruct ds as [|d ds'].
  { subst g n. unfold Qcdiv. change (Qc_of_nat (length [])) with 0%Qc.
    change (/ 0) with 0%Qc. unfold sumXX, sumXY, sumSquaredError. simpl. ring. }
  assert (n ≠ 0) as Hn.
  { apply Qc_pos_neq_0, Qc_of_nat_pos. simpl. lia. }
  replace (2 * (a * sumXX (d :: ds') - sumXY (d :: ds'))) with (g * n).
  - unfold Qcdiv. field. done.
  - subst g. unfold Qcdiv. field. done.
Qed.


Lemma sumXX_pos (ds : list (Qc * Qc)) :
  Exists (λ d, d.1 ≠ 0) ds → 0 < sumXX ds.
Proof.
  intros Hex. destruct (Qcle_lt_or_eq _ _ (sumXX_nonneg ds)) as [?|Hz]; [done|].
  exfalso. symmetry in Hz. apply Qcsum_eq_0 in Hz.
  - rewrite Forall_fmap in Hz. apply Exists_exists in Hex as (d & Hin & Hd).
    eapply Forall_forall in Hz; [|exact Hin]. simpl in Hz.
    by apply Qcsquare_eq_0 in Hz.
  - apply Forall_fmap, Forall_forall. intros d _. apply Qcsquare_nonneg.
Qed.


End FiniteDatasets.

(** * The charts *)

Section ChartFacts.
Context {num : Type} `{Arith num} `{JSChart num}.
Local Open Scope num_scope.

(** The loop pushes one sample for each value of its variable. *)
Lemma mseCurveLoop_slopes (fuel : nat) (dataPoints : list (DataPoint num))
    (a : num) (data : list (CurveSample num)) :
  mseCurveLoop fuel dataPoints a data
  = (λ slopes, data ++ map (curveSample dataPoints) slopes)
    <$> curveSlopes fuel a.
Proof.
  revert a data. induction fuel as [|fuel IH]; intros a data; [done|].
  cbn [mseCurveLoop curveSlopes].
  destruct (num_leb a curveLast); [|simpl; by rewrite app_nil_r].
  rewrite IH. destruct (curveSlopes fuel (a + curveStep)); [|done].
  simpl. by rewrite <- app_assoc.
Qed.

(** A loop that ended within [fuel] tests ends the same way with more. *)
Lemma curveSlopes_more_fuel (fuel more : nat) (a : num) (slopes : list num) :
  curveSlopes fuel a = Some slopes →
  curveSlopes (fuel + more) a = Some slopes.
Proof.
  revert a slopes. induction fuel as [|fuel IH]; intros a slopes; [done|].
  cbn [curveSlopes Nat.add]. destruct (num_leb a curveLast); [|done].
  destruct (curveSlopes fuel (a + curveStep)) as [l|] eqn:El; [|done].
  by rewrite (IH _ _ El).
Qed.

Lemma mseCurveData_slopes (fuel more : nat) (dataPoints : list (DataPoint num))
    (slopes : list num) :
  curveSlopes fuel curveFirst = Some slopes →
  mseCurveData (fuel + more) dataPoints
  = Some (map (curveSample dataPoints) slopes).
Proof.
  intros Hs. unfold mseCurveData.
  by rewrite mseCurveLoop_slopes, (curveSlopes_more_fuel _ _ _ _ Hs).
Qed.

End ChartFacts.

Section ChartEvaluation.
Local Open Scope num_scope.


(** X20.  In binary64 the loop of the MSE curve also ends after 57 tests,
    with 56 samples: the sums of [0.1] drift (the eleventh slope is
    [-1.39e-16], not 0), the last slope is exactly [4.5], and
    [parseFloat(a.toFixed(2))] labels the samples with the doubles
    nearest to [-1.0], [-0.9], ..., [4.5], the eleventh with [-0].  The
    [mse] of a sample is computed at the slope that drifted, not at its
    label. *)
Theorem mseCurveData_binary64 (dataPoints : list (DataPoint float))
    (fuel : nat) :
  ∃ slopes : list float,
    mseCurveData (57 + fuel) dataPoints
    = Some (map (λ a, {| cs_a := toFixed2 a;
                         cs_mse := calculateMSE a dataPoints |}) slopes)
    ∧ length slopes = 56%nat
    ∧ map toFixed2 slopes = map curveLabel (seq 0 56)
    ∧ slopes !! 10%nat = Some (-0x1.4p-53)%float
    ∧ toFixed2 (-0x1.4p-53)%float = (-0)%float
    ∧ list.last slopes = Some 4.5%float.
Proof.
  destruct (curveSlopes 57 (curveFirst : float)) as [slopes|] eqn:Hs;
    [|by vm_compute in Hs].
  exists slopes. split; [by apply mseCurveData_slopes|].
  vm_compute in Hs. injection Hs as <-. repeat split; vm_compute; reflexivity.
Qed.

End ChartEvaluation.

(** * The dataset and the fitted line, in the exact model *)

Section DatasetFacts.
Local Open Scope num_scope.

Lemma dataPoints_handle {num : Type} `{JSNumber num} (ev : Event)
    (s : State num) :
  dataPoints (handle ev s)
  = match ev with
    | ClickResetAll =>
        [ point 1 2; point 2 4; point 3 5; point 4 7; point 5 11;
          point 6 11; point 7 14; point 8 17; point 9 20; point 10 21 ]
    | EditData index field value =>
        alter (withCoord field (parseFloatOrZero value)) index (dataPoints s)
    | _ => dataPoints s
    end.
Proof.
  destruct ev.
  - rewrite handle_ClickStep.
    by destruct (performSingleStep_fields s (timerPending s)) as (-> & _).
  - rewrite handle_TimerFires.
    by destruct (performSingleStep_fields s false) as (-> & _).
  - by destruct (startSimulation_fields s) as (-> & _).
  - by destruct s.
  - by destruct s.
  - by destruct s.
  - by destruct s.
  - by destruct s.
  - by destruct s.
Qed.

(** [parseFloat(value) || 0] is never [NaN]. *)
Lemma parseFloatOrZero_number (value : string) :
  parseFloatOrZero (num := xnum) value ≠ NaN.
Proof.
  unfold parseFloatOrZero. cbn [parseFloat truthy xnum_JSNumber].
  destruct (xparseFloat value) as [|t|q]; simpl; [done..|].
  by destruct (negb _).
Qed.

Lemma coordinates_are_numbers (s : State xnum) :
  reachable s → Forall (λ p, px p ≠ NaN ∧ py p ≠ NaN) (dataPoints s).
Proof.
  induction 1 as [|ev s _ IH _]; [by repeat constructor|].
  rewrite dataPoints_handle. destruct ev; try done.
  - by repeat constructor.
  - apply Forall_lookup. intros i p Hi.
    rewrite Forall_lookup in IH.
    destruct (decide (i = index)) as [->|Hne].
    + rewrite list_lookup_alter_eq in Hi.
      destruct (dataPoints s !! index) as [p0|] eqn:Hp0; [|done].
      injection Hi as <-. destruct (IH _ _ Hp0) as [Hx Hy].
      pose proof (parseFloatOrZero_number value).
      by destruct field.
    + rewrite list_lookup_alter_ne in Hi by done. by eapply IH.
Qed.

(** X17.  No coordinate of the dataset is ever [NaN]: the points of the
    first render and of [resetAll] are numbers, and an edit stores
    [parseFloat(value) || 0]. *)
Theorem data_coordinates_never_NaN (s : State xnum) :
  reachable s → Forall (λ p, px p ≠ NaN ∧ py p ≠ NaN) (dataPoints s).
Proof. apply coordinates_are_numbers. Qed.

Lemma xle_refl (u : xnum) : u ≠ NaN → xle u u.
Proof. destruct u; [done|by right..]. Qed.

Lemma xlt_trans (u v w : xnum) : xlt u v → xlt v w → xlt u w.
Proof.
  destruct u as [|s|p], v as [|t|q], w as [|r|o]; simpl; try done;
    try apply Qclt_trans; intros; intuition congruence.
Qed.

Lemma xle_trans (u v w : xnum) : xle u v → xle v w → xle u w.
Proof.
  intros Huv Hvw.
  assert (u ≠ NaN ∧ v ≠ NaN ∧ w ≠ NaN) as (Hu & Hv & Hw).
  { by destruct u, v, w. }
  assert (xlt u v ∨ u = v) as [Hlt| ->] by (by destruct u, v).
  - assert (xlt v w ∨ v = w) as [Hlt'|<-] by (by destruct v, w).
    + pose proof (xlt_trans _ _ _ Hlt Hlt'). destruct u, w; try done; by left.
    + done.
  - done.
Qed.

Lemma xlt_total (u v : xnum) :
  u ≠ NaN → v ≠ NaN → xlt u v ∨ u = v ∨ xlt v u.
Proof.
  destruct u as [|s|p], v as [|t|q]; simpl; try done; intros _ _.
  - destruct s, t; auto.
  - destruct s; auto.
  - destruct t; auto.
  - destruct (Q_dec p q) as [[?|?]|?]; [by left|by right; right|].
    right; left. f_equal. by apply Qc_is_canon.
Qed.

Lemma xmax_bounds (u v : xnum) :
  u ≠ NaN → v ≠ NaN →
  xmax u v ≠ NaN ∧ xle u (xmax u v) ∧ xle v (xmax u v).
Proof.
  intros Hu Hv. unfold xmax.
  assert ((if bool_decide (xlt u v) then v else u) ≠ NaN
          ∧ xle u (if bool_decide (xlt u v) then v else u)
          ∧ xle v (if bool_decide (xlt u v) then v else u)) as Hgoal.
  { case_bool_decide as Hlt.
    - split; [done|]. split; [|by apply xle_refl].
      destruct u, v; try done; by left.
    - split; [done|]. split; [by apply xle_refl|].
      destruct (xlt_total u v Hu Hv) as [?|[ ->|Hvu]]; [done|by apply xle_refl|].
      destruct u, v; try done; by left. }
  by destruct u, v.
Qed.

Lemma foldl_xmax_bounds (values : list xnum) (highest : xnum) :
  highest ≠ NaN → Forall (λ u, u ≠ NaN) values →
  foldl xmax highest values ≠ NaN
  ∧ xle highest (foldl xmax highest values)
  ∧ Forall (λ u, xle u (foldl xmax highest values)) values.
Proof.
  intros Hh Hv. revert highest Hh.
  induction Hv as [|u values Hu _ IH]; intros highest Hh.
  - simpl. split; [done|]. split; [by apply xle_refl|constructor].
  - cbn [foldl]. destruct (xmax_bounds highest u Hh Hu) as (Hm & Hhm & Hum).
    destruct (IH _ Hm) as (Hn & Hle & Hall).
    split; [done|]. split; [by eapply xle_trans|].
    constructor; [by eapply xle_trans|done].
Qed.


End DatasetFacts.

(** * Rounding to four decimals, in the exact model *)

Section RoundingFacts.
Local Open Scope Qc_scope.

Lemma Qfloor_half (n : Z) : Qfloor (inject_Z n + (1 # 2))%Q = n.
Proof.
  pose proof (Qfloor_le (inject_Z n + (1 # 2))) as Hle.
  pose proof (Qlt_floor (inject_Z n + (1 # 2))) as Hlt.
  set (k := Qfloor (inject_Z n + (1 # 2))) in *.
  assert (inject_Z k < inject_Z (n + 1))%Q as H1.
  { rewrite inject_Z_plus. change (inject_Z 1) with 1%Q. lra. }
  assert (inject_Z n < inject_Z (k + 1))%Q as H2 by lra.
  rewrite <- Zlt_Qlt in H1, H2. lia.
Qed.

Lemma this_fraction (n : Z) :
  (this (Q2Qc (n # 10000)) * 10000 == inject_Z n)%Q.
Proof.
  cbn [this Q2Qc]. rewrite Qred_correct, (Qmake_Qdiv n 10000).
  change (inject_Z (Z.pos 10000)) with 10000%Q. field.
Qed.

(** A multiple of [10^-4] is its own rounding, with either sign. *)
Lemma round4_fixed (n : Z) (negative : bool) :
  (0 ≤ n)%Z →
  let m := Q2Qc (n # 10000) in
  round4 (if negative then - m else m) = (if negative then - m else m).
Proof.
  intros Hn m. set (r := if negative then - m else m).
  assert (0 <= inject_Z n)%Q as Hz.
  { change 0%Q with (inject_Z 0). by rewrite <- Zle_Qle. }
  pose proof (this_fraction n) as Hm. fold m in Hm.
  assert (0 <= this m)%Q as Hm0.
  { revert Hz Hm. generalize (inject_Z n). intros z Hz Hm. lra. }
  assert (Qabs r == this m)%Q as Habs.
  { unfold r. destruct negative.
    - by rewrite this_opp, Qabs_opp, Qabs_pos.
    - by rewrite Qabs_pos. }
  unfold round4. destruct (Qle_bool _ _); [done|].
  assert (Qfloor (Qabs r * inject_Z 10000 + (1 # 2)) = n) as ->.
  { transitivity (Qfloor (inject_Z n + (1 # 2))%Q); [|apply Qfloor_half].
    apply Qfloor_comp.
    rewrite Habs. change (inject_Z 10000) with 10000%Q. by rewrite Hm. }
  fold m. unfold Qc_negative. case_bool_decide as Hneg.
  - unfold r in *. destruct negative; [done|].
    exfalso. revert Hneg. unfold Qclt. change (this 0) with 0%Q. lra.
  - unfold r in *. destruct negative; [|done].
    apply Qc_is_canon. rewrite this_opp.
    revert Hneg. unfold Qclt. rewrite this_opp.
    change (this 0) with 0%Q. lra.
Qed.

Lemma round4_idempotent (q : Qc) : round4 (round4 q) = round4 q.
Proof.
  unfold round4 at 2 3. destruct (Qle_bool _ _) eqn:Hbig.
  { unfold round4. by rewrite Hbig. }
  cbv zeta. apply (round4_fixed _ (Qc_negative q)).
  change 0%Z with (Qfloor 0). apply Qfloor_resp_le.
  pose proof (Qabs_nonneg q). change (inject_Z 10000) with 10000%Q. lra.
Qed.

(** Rounding moves a number by at most half a unit of the fourth
    decimal. *)
Lemma round4_close (q : Qc) :
  - Q2Qc (1 # 20000) ≤ round4 q - q ∧ round4 q - q ≤ Q2Qc (1 # 20000).
Proof.
  assert (this (Q2Qc (1 # 20000)) == 1 # 20000)%Q as Hd by apply Qred_correct.
  unfold round4. destruct (Qle_bool _ _).
  { to_Q. rewrite Hd. split; lra. }
  cbv zeta. set (x := (Qabs q * inject_Z 10000 + (1 # 2))%Q).
  pose proof (Qfloor_le x) as Hle. pose proof (Qlt_floor x) as Hlt.
  rewrite inject_Z_plus in Hlt. change (inject_Z 1) with 1%Q in Hlt.
  pose proof (this_fraction (Qfloor x)) as Hm.
  set (m := Q2Qc (Qfloor x # 10000)) in *.
  revert Hle Hlt Hm. generalize (inject_Z (Qfloor x)). intros z Hle Hlt Hm.
  unfold x in *. change (inject_Z 10000) with 10000%Q in *.
  unfold Qc_negative. case_bool_decide as Hneg.
  - assert (Qabs q == - q)%Q as Habs.
    { apply Qabs_neg. revert Hneg. unfold Qclt. change (this 0) with 0%Q. lra. }
    rewrite Habs in Hle, Hlt. to_Q. rewrite Hd. split; lra.
  - assert (Qabs q == q)%Q as Habs.
    { apply Qabs_pos. revert Hneg. unfold Qclt. change (this 0) with 0%Q. lra. }
    rewrite Habs in Hle, Hlt. to_Q. rewrite Hd. split; lra.
Qed.

Lemma xtoFixed4_idempotent (u : xnum) : xtoFixed4 (xtoFixed4 u) = xtoFixed4 u.
Proof. destruct u; simpl; [done..|]. by rewrite round4_idempotent. Qed.

Lemma xtoFixed4_close (u : xnum) : xclose (Q2Qc (1 # 20000)) (xtoFixed4 u) u.
Proof. destruct u; simpl; [done..|]. apply round4_close. Qed.

End RoundingFacts.

Section RecordFacts.
Local Open Scope num_scope.

(** X21.  Every record of History holds numbers of at most four decimals:
    rounding its [a], [mse] or [gradient] again changes nothing. *)
Theorem records_have_four_decimals (s : State xnum) :
  reachable s → Forall rounded (gdHistory s).
Proof.
  induction 1 as [|ev s _ IH _]; [constructor|].
  pose proof (gdHistory_handle ev s) as Hh. destruct (resets ev).
  - rewrite Hh. constructor.
  - destruct Hh as [-> | ->]; [done|]. apply Forall_app. split; [done|].
    constructor; [|constructor]. unfold rounded, stepRecord. cbn [h_a h_mse h_gradient].
    repeat split; apply xtoFixed4_idempotent.
Qed.


End RecordFacts.

(** * Training on a finite dataset, in the exact model *)

Section Training.
Local Open Scope Qc_scope.

Lemma mseOf_nonneg (ds : list (Qc * Qc)) (a : Qc) : 0 ≤ mseOf ds a.
Proof.
  unfold mseOf. destruct ds as [|d ds].
  - unfold Qcdiv. rewrite Qcmult_0_l. apply Qcle_refl.
  - unfold Qcdiv. apply Qcmult_nonneg_nonneg; [apply sumSquaredError_nonneg|].
    apply Qclt_le_weak, Qcinv_pos, Qc_of_nat_pos. simpl. lia.
Qed.

(** What one update gains: [η g^2 (1 - η mean(x^2))]. *)
Lemma mseOf_gain (ds : list (Qc * Qc)) (η a : Qc) :
  mseOf ds a - mseOf ds (a - η * gradientOf ds a)
  = η * (gradientOf ds a * gradientOf ds a) * (1 - η * meanSquare ds.*1).
Proof. rewrite sumXX_meanSquare. apply (descent_gain a η ds). Qed.

(** The state after [k] steps from an empty History. *)
Lemma descent_run (ds : list (Qc * Qc)) (η a0 : Qc) (s : State xnum)
    (k : nat) :
  ds ≠ [] → dataPoints s = finitePoints ds → gdHistory s = [] →
  parseFloatOf (initialA s) = Fin a0 → parseFloatOf (learningRate s) = Fin η →
  (k ≤ 31)%nat →
  let sk := run (steps k) s in
  dataPoints sk = finitePoints ds
  ∧ parseFloatOf (learningRate sk) = Fin η
  ∧ startSlope sk = Fin (slopeAfter η ds a0 k)
  ∧ nextIndex sk = k
  ∧ gdHistory sk = map (trajectoryRecord η ds a0) (seq 0 k).
Proof.
  intros Hne Hdata Hh Hia Hlr. induction k as [|k IH]; intros Hk sk.
  - subst sk. cbn [steps replicate run foldl].
    unfold startSlope, nextIndex. rewrite Hh. by repeat split.
  - destruct IH as (Hd & Hl & Hs & Hn & Hrec); [lia|].
    subst sk. rewrite run_steps_S. set (sk := run (steps k) s) in *.
    rewrite handle_ClickStep.
    destruct (performSingleStep_fields sk (timerPending sk))
      as (Hd' & Hl' & _ & _ & Hf).
    cbv zeta in Hd', Hl', Hf.
    rewrite Hn in Hf. replace (iterations <? k)%nat with false in Hf
      by (symmetry; apply Nat.ltb_ge; unfold iterations; lia).
    destruct Hf as (Hh' & Hc' & Hm' & _).
    rewrite Hs, Hl, Hd, finalGradient_finite in Hm' by done.
    assert (stepRecord sk = trajectoryRecord η ds a0 k) as Hstep.
    { unfold stepRecord, trajectoryRecord. rewrite Hn, Hs, Hd.
      by rewrite calculateMSE_finite, finalGradient_finite. }
    repeat split.
    + by rewrite Hd'.
    + by rewrite Hl'.
    + unfold startSlope. rewrite Hh'.
      destruct (gdHistory sk); simpl; by rewrite Hm'.
    + unfold nextIndex. rewrite Hh', Hc'.
      destruct (gdHistory sk); simpl; lia.
    + by rewrite Hh', Hrec, Hstep, seq_S, map_app.
Qed.


Lemma mseOf_chain (ds : list (Qc * Qc)) (η a0 : Qc) (i j : nat) :
  0 ≤ η → η * meanSquare ds.*1 ≤ 1 → (i ≤ j)%nat →
  mseOf ds (slopeAfter η ds a0 j) ≤ mseOf ds (slopeAfter η ds a0 i).
Proof.
  intros Hη Hm. induction 1 as [|j _ IH]; [apply Qcle_refl|].
  apply Qcle_trans with (mseOf ds (slopeAfter η ds a0 j)); [|done].
  cbn [slopeAfter]. cbv zeta.
  pose proof (mseOf_gain ds η (slopeAfter η ds a0 j)) as Hgain.
  set (a := slopeAfter η ds a0 j) in *.
  assert (0 ≤ η * (gradientOf ds a * gradientOf ds a)
              * (1 - η * meanSquare ds.*1)) as Hnn.
  { apply Qcmult_nonneg_nonneg.
    - apply Qcmult_nonneg_nonneg; [done|apply Qcsquare_nonneg].
    - to_Q. lra. }
  rewrite <- Hgain in Hnn. to_Q. lra.
Qed.



Lemma gradientOf_gap (ds : list (Qc * Qc)) (a : Qc) :
  Exists (λ d, d.1 ≠ 0) ds →
  gradientOf ds a = 2 * meanSquare ds.*1 * (a - leastSquares ds).
Proof.
  intros Hex. pose proof (Qc_pos_neq_0 _ (sumXX_pos ds Hex)) as Hxx.
  assert (Qc_of_nat (length ds) ≠ 0) as Hn.
  { apply Qc_pos_neq_0, Qc_of_nat_pos.
    destruct ds; [by apply Exists_nil in Hex|simpl; lia]. }
  rewrite sumXX_meanSquare. unfold gradientOf, leastSquares. by field.
Qed.

Lemma slopeAfter_gap (ds : list (Qc * Qc)) (η a0 : Qc) (k : nat) :
  Exists (λ d, d.1 ≠ 0) ds →
  slopeAfter η ds a0 k - leastSquares ds
  = (1 - 2 * η * meanSquare ds.*1) ^ k * (a0 - leastSquares ds).
Proof.
  intros Hex. induction k as [|k IH]; [simpl; ring|].
  cbn [slopeAfter Qcpower]. cbv zeta. rewrite gradientOf_gap by done.
  set (q := 1 - 2 * η * meanSquare ds.*1) in *.
  transitivity (q * (q ^ k * (a0 - leastSquares ds))); [|ring].
  rewrite <- IH. unfold q. ring.
Qed.


End Training.

(** * The panel's next slope *)

Section PanelFacts.
Context {num : Type} `{JSNumber num} `{JSCoerce num}.
Local Open Scope num_scope.

(** X27.  Right after a step the panel's "next a" is the slope the step
    left, whenever [Number] and [parseFloat] read the learning rate the
    same (always when it is a number, as before any edit of it). *)
Theorem panel_shows_next_slope (s : State num) :
  (nextIndex s ≤ 30)%nat →
  toNumberOf (learningRate s) = parseFloatOf (learningRate s) →
  let s' := handle ClickStep s in
  panelNextA s' = Some (manualA s').
Proof.
  intros Hn Hlr s'. subst s'. unfold panelNextA.
  pose proof (performSingleStep_details s (timerPending s)) as Hsd.
  rewrite handle_ClickStep.
  destruct (performSingleStep_fields s (timerPending s))
    as (_ & Hl & _ & _ & Hf).
  cbv zeta in Hl, Hf, Hsd. apply Nat.ltb_ge in Hn. fold iterations in Hn.
  rewrite Hn in Hf, Hsd. destruct Hf as (_ & _ & -> & _).
  rewrite Hsd, Hl. cbn [sd_currentA sd_finalGradient]. by rewrite Hlr.
Qed.

End PanelFacts.

Section PanelEvaluation.
Local Open Scope num_scope.

(** X28.  With a learning rate text that [Number] reads as 0 and
    [parseFloat] as [NaN], as the emptied field is, a step from a finite
    slope with a finite gradient leaves the slope [NaN], while the
    panel's "next a" shows the slope the step started from. *)
Theorem empty_learning_rate_panel (s : State xnum) (text : string)
    (a g : Qc) :
  learningRate s = FText text →
  toNumber text = Fin 0 → parseFloat text = NaN →
  (nextIndex s ≤ 30)%nat →
  startSlope s = Fin a →
  finalGradient (calculateGradientDetails (startSlope s) (dataPoints s))
  = Fin g →
  let s' := handle ClickStep s in
  manualA s' = NaN ∧ panelNextA s' = Some (Fin a).
Proof.
  intros Hlr Hnum Hpf Hn Hs Hg s'. subst s'. unfold panelNextA.
  pose proof (performSingleStep_details s (timerPending s)) as Hsd.
  rewrite handle_ClickStep.
  destruct (performSingleStep_fields s (timerPending s))
    as (_ & Hl & _ & _ & Hf).
  cbv zeta in Hl, Hf, Hsd. apply Nat.ltb_ge in Hn. fold iterations in Hn.
  rewrite Hn in Hf, Hsd. destruct Hf as (_ & _ & -> & _).
  rewrite Hsd, Hl, Hlr. cbn [sd_currentA sd_finalGradient parseFloatOf
    toNumberOf]. rewrite Hg, Hs, Hnum, Hpf. split; [done|].
  simpl. do 2 f_equal. ring.
Qed.

End PanelEvaluation.

(** * The properties at states of the page *)

Section Instances.
Local Open Scope num_scope.

(** The record of the first step stays in place through the slider and a
    second step. *)
Lemma first_record_stays :
  gdHistory (handle ClickStep start)
  `prefix_of`
  gdHistory (run [SlideManualA "2"; ClickStep] (handle ClickStep start)).
Proof.
  apply (history_append_only (H0 := xnum_JSNumber)). by repeat constructor.
Defined.

(** The full run from the first render. *)
Lemma full_run_from_first_render :
  let s31 := run (steps 31) start in
  length (gdHistory s31) = 31%nat
  ∧ historyIndexed (gdHistory s31)
  ∧ currentStep s31 = 30%nat
  ∧ run (steps (31 + 1)) start = s31.
Proof. apply (full_run (H0 := xnum_JSNumber) start 1). reflexivity. Defined.

Lemma ten_points_after_an_edit :
  length (dataPoints (handle (EditData 0 CoordX "abc") start)) = 10%nat.
Proof.
  apply (dataset_keeps_ten_points (H0 := xnum_JSNumber)).
  apply reachable_step; [apply reachable_init|simpl; lia].
Defined.

Lemma counter_after_first_step :
  let s := handle ClickStep start in
  (currentStep s ≤ 30)%nat
  ∧ match list.last (gdHistory s) with
    | None => currentStep s = 0%nat
    | Some r => h_step r = currentStep s
    end.
Proof.
  apply (counter_follows_history (H0 := xnum_JSNumber)).
  apply reachable_step; [apply reachable_init|reflexivity].
Defined.

Lemma panel_after_first_step :
  let s := handle ClickStep start in
  match stepDetails s, list.last (gdHistory s) with
  | None, None => True
  | Some d, Some r =>
      h_a r = toFixed4 (sd_currentA d)
      ∧ h_mse r = toFixed4 (calculateMSE (sd_currentA d) (dataPoints s))
      ∧ h_gradient r = toFixed4 (sd_finalGradient d)
      ∧ sd_finalGradient d
        = finalGradient (calculateGradientDetails (sd_currentA d) (dataPoints s))
      ∧ sd_pointGradients d
        = pointGradients (calculateGradientDetails (sd_currentA d) (dataPoints s))
  | _, _ => False
  end.
Proof.
  apply (panel_matches_last_record (H0 := xnum_JSNumber)).
  apply reachable_step; [apply reachable_init|reflexivity].
Defined.

Lemma animation_from_first_render :
  let evs := ClickStart :: replicate 31 TimerFires in
  let s' := run evs start in
  let s'' := handle TimerFires s' in
  enabledRun evs start ∧ enabled TimerFires s'
  ∧ length (gdHistory s') = 31%nat
  ∧ gdHistory s'' = gdHistory s'
  ∧ isAnimating s'' = true
  ∧ timerPending s'' = false
  ∧ ¬ enabled TimerFires s''.
Proof.
  apply (animation_runs_out (H0 := xnum_JSNumber) start); reflexivity.
Defined.

Lemma edit_of_first_point :
  let s' := handle (EditData 0 CoordX "abc") start in
  (∃ p', dataPoints s' !! 0%nat = Some p'
         ∧ px p' = parseFloatOrZero "abc" ∧ py p' = py (point 20 45))
  ∧ (∀ j, j ≠ 0%nat → dataPoints s' !! j = dataPoints start !! j)
  ∧ length (dataPoints s') = length (dataPoints start)
  ∧ learningRate s' = learningRate start ∧ initialA s' = initialA start
  ∧ gdHistory s' = [].
Proof.
  apply (data_edit_changes_one_coordinate (H0 := xnum_JSNumber)
           start 0 CoordX "abc" (point 20 45)).
  reflexivity.
Defined.

Lemma first_step_after_resetAll :
  let s1 := handle ClickResetAll start in
  let s2 := handle ClickStep s1 in
  let a0 := parseFloatOf (initialA s1) in
  let g := finalGradient (calculateGradientDetails a0 (dataPoints s1)) in
  gdHistory s2
  = [ {| h_step := 0; h_a := toFixed4 a0;
         h_mse := toFixed4 (calculateMSE a0 (dataPoints s1));
         h_gradient := toFixed4 g |} ]
  ∧ currentStep s2 = 0%nat
  ∧ manualA s2 = a0 - parseFloatOf (learningRate s1) * g.
Proof.
  apply (first_step_after_reset (H0 := xnum_JSNumber) ClickResetAll start).
  reflexivity.
Defined.

Lemma start_then_stop_at_first_render :
  let s1 := handle ClickStart start in
  let s2 := handle ClickStart s1 in
  (isAnimating s1 = true ∧ timerPending s1 = true ∧ ¬ enabled ClickStep s1)
  ∧ (isAnimating s2 = false ∧ timerPending s2 = false)
  ∧ gdHistory s1 = gdHistory start ∧ gdHistory s2 = gdHistory start
  ∧ dataPoints s2 = dataPoints start ∧ learningRate s2 = learningRate start
  ∧ initialA s2 = initialA start
  ∧ (gdHistory start ≠ [] →
       manualA s2 = manualA start ∧ currentStep s2 = currentStep start)
  ∧ (gdHistory start = [] →
       manualA s2 = parseFloatOf (initialA start) ∧ currentStep s2 = 0%nat).
Proof.
  apply (start_then_stop (H0 := xnum_JSNumber) start). reflexivity.
Defined.

Lemma timer_set_by_start :
  isAnimating (handle ClickStart start) = true.
Proof.
  apply (timer_needs_animation (H0 := xnum_JSNumber)); [|reflexivity].
  apply reachable_step; [apply reachable_init|exact I].
Defined.




Lemma numbers_after_an_edit :
  Forall (λ p, px p ≠ NaN ∧ py p ≠ NaN)
    (dataPoints (handle (EditData 0 CoordX "abc") start)).
Proof.
  apply data_coordinates_never_NaN.
  apply reachable_step; [apply reachable_init|simpl; lia].
Defined.


Lemma first_record_has_four_decimals :
  Forall rounded (gdHistory (handle ClickStep start)).
Proof.
  apply records_have_four_decimals.
  apply reachable_step; [apply reachable_init|reflexivity].
Defined.






Lemma panel_after_first_step_shows_next_slope :
  let s' := handle ClickStep start in
  panelNextA s' = Some (manualA s').
Proof.
  apply (panel_shows_next_slope (H0 := xnum_JSNumber) start);
    [vm_compute; lia|reflexivity].
Defined.

(** The first render with the learning-rate field emptied. *)
Lemma emptied_learning_rate :
  let s := handle (EditLearningRate EmptyString) start in
  let s' := handle ClickStep s in
  manualA s' = NaN ∧ panelNextA s' = Some (Fin 0).
Proof.
  apply (empty_learning_rate_panel
           (handle (EditLearningRate EmptyString) start) EmptyString
           0%Qc (Q2Qc (-19902 # 5)));
    [reflexivity|reflexivity|reflexivity|vm_compute; lia|by_compute
    |by_compute].
Defined.

End Instances.
